(** * Pager and Toggle: a shallow embedding of two React components

    [Pager] (view/com/pager, a tabbed container) and [Toggle]
    (src/components/forms/Toggle.tsx, a radio / checkbox form-control family)
    are React function components.  A component is embedded as

    - its props and its [useState] cells, as records;
    - its event handlers, as functions that return the list of effects the
      handler performs, in program order (state-setter calls and calls of
      caller-supplied callbacks);
    - its render result, as a function of props and state;
    - its [useEffect] bodies, run after every commit whose dependency list
      changed.

    JavaScript [number]s that are used as indices and counts are [Z];
    [undefined] is [None]. *)

From stdpp Require Import base option list numbers strings.

Local Open Scope Z_scope.

(** ** Pager *)

Module Pager.

Section WithNodes.

(** [Node]: a React child; [TabBar]: the element [renderTabBar] returns;
    [Fn]: a caller-supplied [(index: number) => void]. *)
Context {Node TabBar Fn : Type}.

Inductive TabBarPosition := top | bottom.

(** What a handler of the component does, in order. *)
Inductive Effect :=
| SetSelectedPage (index : Z)
| Invoke (f : Fn) (index : Z).

Record RenderTabBarFnProps := {
  selectedPage : Z;
  onSelect : Z → list Effect;
}.

Record Props := {
  children : list Node;
  tabBarPosition : option TabBarPosition;
  initialPage : option Z;
  renderTabBar : RenderTabBarFnProps → TabBar;
  onPageSelected : option Fn;
  onPageSelecting : option Fn;
}.

(** [f?.(index)] *)
Definition optional_call (f : option Fn) (index : Z) : list Effect :=
  match f with
  | Some g => [Invoke g index]
  | None => []
  end.

(** [React.useState(initialPage)], with the default [initialPage = 0]. *)
Definition initialState (p : Props) : Z := default 0 (initialPage p).

(** The imperative handle: [setPage: index => setSelectedPage(index)]. *)
Definition setPage (index : Z) : list Effect := [SetSelectedPage index].

Definition onTabBarSelect (p : Props) (index : Z) : list Effect :=
  SetSelectedPage index
    :: optional_call (onPageSelected p) index
    ++ optional_call (onPageSelecting p) index.

(** One wrapping [View] per child: [key] is the [i] of [`page-${i}`],
    [visible] is [selectedPage === i] (style [s.flex1], otherwise
    [display: 'none']). *)
Record Pane := {
  key : nat;
  visible : bool;
  content : Node;
}.

Record Rendered := {
  barAbove : option TabBar;
  panes : list Pane;
  barBelow : option TabBar;
}.

Definition tabBar (p : Props) (selected : Z) : TabBar :=
  renderTabBar p {| selectedPage := selected; onSelect := onTabBarSelect p |}.

Definition pane (selected : Z) (i : nat) (child : Node) : Pane :=
  {| key := i; visible := bool_decide (selected = Z.of_nat i); content := child |}.

Definition render (p : Props) (selected : Z) : Rendered :=
  let position := default top (tabBarPosition p) in
  {| barAbove := if position is top then Some (tabBar p selected) else None;
     panes := imap (pane selected) (children p);
     barBelow := if position is bottom then Some (tabBar p selected) else None |}.

(** Running a handler: state-setter calls update the cell (the last one
    wins), callback calls are appended to the log in call order. *)
Fixpoint run (es : list Effect) (selected : Z) : Z * list (Fn * Z) :=
  match es with
  | [] => (selected, [])
  | SetSelectedPage i :: es' => run es' i
  | Invoke f i :: es' => let '(s, log) := run es' selected in (s, (f, i) :: log)
  end.

(** The two ways the selected page is changed from outside. *)
Inductive Event :=
| TabBarSelect (index : Z)
| SetPage (index : Z).

Definition handler (p : Props) (e : Event) : list Effect :=
  match e with
  | TabBarSelect i => onTabBarSelect p i
  | SetPage i => setPage i
  end.

Definition step (p : Props) (e : Event) (selected : Z) : Z * list (Fn * Z) :=
  run (handler p e) selected.

Fixpoint steps (p : Props) (evs : list Event) (selected : Z) : Z * list (Fn * Z) :=
  match evs with
  | [] => (selected, [])
  | e :: evs' =>
      let '(s1, log1) := step p e selected in
      let '(s2, log2) := steps p evs' s1 in
      (s2, log1 ++ log2)
  end.

End WithNodes.

Arguments Effect : clear implicits.
Arguments Props : clear implicits.
Arguments Pane : clear implicits.
Arguments Rendered : clear implicits.
Arguments RenderTabBarFnProps : clear implicits.

End Pager.

(** ** Toggle *)

Module Toggle.

Inductive ToggleType := radio | checkbox.

Global Instance ToggleType_eq_dec : EqDecision ToggleType.
Proof. solve_decision. Defined.

(** The argument of [setFieldValue] and of an Item's [onChange]:
    [{name: string; value: boolean}]. *)
Record FieldValue := {
  fieldName : string;
  fieldValue : bool;
}.

(** A function of type [(props: {name; value}) => void] as the components
    pass it around.  [GroupSetter] is the enclosing Group's
    [setFieldValue]; [Noop] is the [() => {}] of the default
    [GroupContext]; [External f] is a function supplied by the caller. *)
Inductive Handler :=
| GroupSetter
| Noop
| External (f : nat).

(** *** Group: state and the field setter *)

(** An argument of [setValues]: an updater function or a plain value. *)
Inductive ValuesUpdate :=
| Updater (f : list string → list string)
| Replace (v : list string).

Definition setFieldValue (type : ToggleType) (fv : FieldValue) : ValuesUpdate :=
  match type with
  | checkbox =>
      Updater (λ s,
        let state := filter (λ v, v ≠ fieldName fv) s in
        if fieldValue fv then state ++ [fieldName fv] else state)
  | radio => Replace [fieldName fv]
  end.

Definition applyUpdate (u : ValuesUpdate) (s : list string) : list string :=
  match u with
  | Updater f => f s
  | Replace v => v
  end.

(** A child of the Group as [React.Children.map] hands it over: a valid
    element with its [name] and [disabled] props, or something else
    (text, null, ...). *)
Inductive Child :=
| Element (name : string) (disabled : option bool)
| NotElement.

(** The props of a Group.  Caller-supplied functions are told apart by a
    number: [groupOnChange] is the function passed as [onChange] when the
    Group is mounted. *)
Record GroupProps := {
  groupType : option ToggleType;
  initialValues : option (list string);
  maxSelections : option Z;
  groupDisabled : option bool;
  groupOnChange : nat;
  groupChildren : list Child;
}.

(** Defaults of the destructured props: [type = 'checkbox'],
    [disabled = false]. *)
Definition typeOf (p : GroupProps) : ToggleType := default checkbox (groupType p).
Definition disabledOf (p : GroupProps) : bool := default false (groupDisabled p).

Inductive Error :=
| ConfigError (message : string).

Definition missingValues : Error :=
  ConfigError "Don't forget to pass in 'values' to your Toggle.Group".

(** The hook memory of a mounted Group.  [values] and [maxReached] are the
    two [useState] cells.  [valuesRef] stands for the identity of the
    array object held in the first cell: effect dependencies are compared
    with [Object.is], and every [filter], [concat] and array literal
    yields a fresh array.  [onChangeProp] is the [onChange] function of the
    latest render: a parent that passes an inline function passes a new one
    on each of its renders.  The other props stay as they were at mount.
    [changeDeps] and [capDeps] are the dependencies the two effects last ran
    with ([None] before the first commit), as far as they can change. *)
Record Instance := {
  values : list string;
  valuesRef : nat;
  maxReached : bool;
  onChangeProp : nat;
  changeDeps : option (nat * nat);
  capDeps : option (nat * bool);
}.

(** [initialValues.slice(0, 1)] *)
Definition slice01 (l : list string) : list string := take 1 l.

(** The body of [Group] up to the two [useState] calls of the first
    render. *)
Definition construct (p : GroupProps) : Error + Instance :=
  match initialValues p with
  | None => inl missingValues
  | Some vs =>
      inr {| values := if typeOf p is radio then slice01 vs else vs;
             valuesRef := 0;
             maxReached := false;
             onChangeProp := groupOnChange p;
             changeDeps := None;
             capDeps := None |}
  end.

(** [maxSelections && ...]: [undefined] and [0] are falsy.  (So is [NaN],
    which an integer cap does not cover.) *)
Definition truthy (m : option Z) : option Z :=
  match m with
  | Some 0 => None
  | other => other
  end.

(** The body of the second effect: the new value handed to
    [setMaxReached], if it is called. *)
Definition capEffect (p : GroupProps) (len : nat) (reached : bool) : option bool :=
  match typeOf p with
  | checkbox =>
      match truthy (maxSelections p) with
      | Some m =>
          if bool_decide (m ≤ Z.of_nat len) && negb reached then Some true
          else if bool_decide (Z.of_nat len < m) && reached then Some false
          else None
      | None => None
      end
  | radio => None
  end.

(** What the Group makes the caller observe. *)
Inductive Call :=
| OnChange (f : nat) (selection : list string)
| ItemOnChange (f : nat) (fv : FieldValue).

(** The passive effects of one commit.  The first calls [onChange(values)]
    if [values] is a different array, or [onChange] a different function,
    than at its last run; the second runs [capEffect] if [values.length] or
    [maxReached] changed.  The result is
    the instance after the commit, the calls made, and whether a state
    setter changed a cell (which schedules another render). *)
Definition commitEffects (p : GroupProps) (g : Instance) : Instance * list Call * bool :=
  let calls :=
    if bool_decide (changeDeps g = Some (valuesRef g, onChangeProp g)) then []
    else [OnChange (onChangeProp g) (values g)] in
  let deps := (length (values g), maxReached g) in
  let update :=
    if bool_decide (capDeps g = Some deps) then None
    else capEffect p (length (values g)) (maxReached g) in
  let reached := default (maxReached g) update in
  ({| values := values g;
      valuesRef := valuesRef g;
      maxReached := reached;
      onChangeProp := onChangeProp g;
      changeDeps := Some (valuesRef g, onChangeProp g);
      capDeps := Some deps |},
   calls,
   bool_decide (reached ≠ maxReached g)).

(** Render, run the effects, and render again while effects keep setting
    state; [None] when the bound on nested updates is exhausted. *)
Fixpoint flush (fuel : nat) (p : GroupProps) (g : Instance) : option (Instance * list Call) :=
  match fuel with
  | O => None
  | S fuel' =>
      let '(g', calls, again) := commitEffects p g in
      if again then
        '(g'', calls') ← flush fuel' p g';
        Some (g'', calls ++ calls')
      else Some (g', calls)
  end.

(** React gives up after this many nested updates. *)
Definition updateLimit : nat := 50.

Inductive Mounted :=
| Threw (e : Error)
| Live (g : Instance) (calls : list Call)
| Diverged.

Definition mount (p : GroupProps) : Mounted :=
  match construct p with
  | inl e => Threw e
  | inr g =>
      match flush updateLimit p g with
      | Some (g', calls) => Live g' calls
      | None => Diverged
      end
  end.

(** *** Group: what it renders *)

(** [disabled || child.props.disabled] *)
Definition orProp (a : bool) (b : option bool) : option bool :=
  if a then Some true else b.

(** The props [React.cloneElement] puts on a child. *)
Record Cloned := {
  clonedName : string;
  clonedDisabled : option bool;
  clonedType : ToggleType;
  clonedValue : bool;
  clonedOnChange : Handler;
}.

Definition includes (l : list string) (x : string) : bool := bool_decide (x ∈ l).

Definition cloneChild (p : GroupProps) (g : Instance) (c : Child) : option Cloned :=
  match c with
  | NotElement => None
  | Element name childDisabled =>
      let isSelected := includes (values g) name in
      let isDisabled := orProp (disabledOf p) childDisabled in
      let isDisabled :=
        if maxReached g && negb isSelected then Some true else isDisabled in
      Some {| clonedName := name;
              clonedDisabled := isDisabled;
              clonedType := if typeOf p is radio then radio else checkbox;
              clonedValue := isSelected;
              clonedOnChange := GroupSetter |}
  end.

Record GroupContext := {
  ctxValues : list string;
  ctxDisabled : bool;
  ctxType : ToggleType;
  ctxSetFieldValue : Handler;
}.

Definition defaultContext : GroupContext :=
  {| ctxType := checkbox; ctxValues := []; ctxDisabled := false;
     ctxSetFieldValue := Noop |}.

Definition contextOf (p : GroupProps) (g : Instance) : GroupContext :=
  {| ctxValues := values g; ctxType := typeOf p; ctxDisabled := disabledOf p;
     ctxSetFieldValue := GroupSetter |}.

Definition renderGroup (p : GroupProps) (g : Instance) : list (option Cloned) :=
  cloneChild p g <$> groupChildren p.

(** *** Item *)

Record ItemProps := {
  itemName : string;
  itemValue : option bool;
  itemDisabled : option bool;
  itemOnChange : option Handler;
  itemHasError : option bool;
  itemType : option ToggleType;
}.

(** The three [useInteractionState] flags of an Item. *)
Record Interaction := {
  isHovered : bool;
  isPressed : bool;
  isFocused : bool;
}.

Record ItemState := {
  stName : string;
  stSelected : bool;
  stDisabled : bool;
  stHasError : bool;
  stHovered : bool;
  stPressed : bool;
  stFocused : bool;
}.

(** [groupType === 'radio' ? 'radio' : type], with the default
    [type = 'checkbox']. *)
Definition role (ctx : GroupContext) (item : ItemProps) : ToggleType :=
  if ctxType ctx is radio then radio else default checkbox (itemType item).

(** [selectedValues.includes(name) || !!value] *)
Definition selectedIn (ctx : GroupContext) (item : ItemProps) : bool :=
  includes (ctxValues ctx) (itemName item) || default false (itemValue item).

(** [groupDisabled || itemDisabled], with the default [disabled = false]. *)
Definition disabledIn (ctx : GroupContext) (item : ItemProps) : bool :=
  ctxDisabled ctx || default false (itemDisabled item).

Definition itemState (ctx : GroupContext) (item : ItemProps) (i : Interaction) : ItemState :=
  {| stName := itemName item;
     stSelected := selectedIn ctx item;
     stDisabled := disabledIn ctx item;
     stHasError := default false (itemHasError item);
     stHovered := isHovered i;
     stPressed := isPressed i;
     stFocused := isFocused i |}.

(** [onPress]: the handlers it calls and their argument, in call order. *)
Definition onPress (ctx : GroupContext) (item : ItemProps) : list (Handler * FieldValue) :=
  let next := negb (default false (itemValue item)) in
  let arg := {| fieldName := itemName item; fieldValue := next |} in
  (ctxSetFieldValue ctx, arg)
    :: match itemOnChange item with
       | Some h => [(h, arg)]
       | None => []
       end.

(** The [Pressable] does not deliver a press while [disabled]. *)
Definition pressable (ctx : GroupContext) (item : ItemProps) : list (Handler * FieldValue) :=
  if disabledIn ctx item then [] else onPress ctx item.

(** What a list of handler calls amounts to: the calls that reach the
    caller, and the updates queued on the enclosing Group's [values]. *)
Definition externalCalls (hs : list (Handler * FieldValue)) : list Call :=
  hs ≫= λ '(h, fv), if h is External f then [ItemOnChange f fv] else [].

Definition queuedUpdates (type : ToggleType) (hs : list (Handler * FieldValue))
  : list ValuesUpdate :=
  hs ≫= λ '(h, fv), if h is GroupSetter then [setFieldValue type fv] else [].

(** An Item rendered from a child the Group cloned. *)
Definition itemOfCloned (c : Cloned) : ItemProps :=
  {| itemName := clonedName c;
     itemValue := Some (clonedValue c);
     itemDisabled := clonedDisabled c;
     itemOnChange := Some (clonedOnChange c);
     itemHasError := None;
     itemType := Some (clonedType c) |}.

(** *** Group: events *)

(** The queued updates are applied in order to the current state; the
    result is a new array. *)
Definition reduce (queue : list ValuesUpdate) (g : Instance) : Instance :=
  {| values := foldl (λ s u, applyUpdate u s) (values g) queue;
     valuesRef := S (valuesRef g);
     maxReached := maxReached g;
     onChangeProp := onChangeProp g;
     changeDeps := changeDeps g;
     capDeps := capDeps g |}.

(** The handler calls [hs] of one event, made inside the Group: external
    calls happen during the event, then the batched state updates are
    applied and the Group re-renders and runs its effects. *)
Definition handle (p : GroupProps) (hs : list (Handler * FieldValue)) (g : Instance)
  : option (Instance * list Call) :=
  match queuedUpdates (typeOf p) hs with
  | [] => Some (g, externalCalls hs)
  | queue =>
      '(g', calls) ← flush updateLimit p (reduce queue g);
      Some (g', externalCalls hs ++ calls)
  end.

(** [onPress] of an Item rendered under the Group runs. *)
Definition activate (p : GroupProps) (item : ItemProps) (g : Instance)
  : option (Instance * list Call) :=
  handle p (onPress (contextOf p g) item) g.

(** The user presses the [k]th child of the Group. *)
Definition pressChild (p : GroupProps) (k : nat) (g : Instance)
  : option (Instance * list Call) :=
  match renderGroup p g !! k with
  | Some (Some c) => handle p (pressable (contextOf p g) (itemOfCloned c)) g
  | _ => Some (g, [])
  end.

(** The parent renders the Group again and passes [f] as [onChange]. *)
Definition rerender (p : GroupProps) (f : nat) (g : Instance)
  : option (Instance * list Call) :=
  flush updateLimit p
    {| values := values g;
       valuesRef := valuesRef g;
       maxReached := maxReached g;
       onChangeProp := f;
       changeDeps := changeDeps g;
       capDeps := capDeps g |}.

(** What can happen to a mounted Group: the user presses its [k]th child,
    [onPress] of some Item rendered below it runs, or the parent renders it
    again. *)
Inductive Event :=
| PressChild (k : nat)
| Activate (item : ItemProps)
| Rerender (onChange : nat).

Definition step (p : GroupProps) (e : Event) (g : Instance)
  : option (Instance * list Call) :=
  match e with
  | PressChild k => pressChild p k g
  | Activate item => activate p item g
  | Rerender f => rerender p f g
  end.

Fixpoint steps (p : GroupProps) (evs : list Event) (g : Instance)
  : option (Instance * list Call) :=
  match evs with
  | [] => Some (g, [])
  | e :: rest =>
      '(g1, calls1) ← step p e g;
      '(g2, calls2) ← steps p rest g1;
      Some (g2, calls1 ++ calls2)
  end.

(** *** Shared styles *)

(** The part of the theme ([useTheme] of #/alf) the style builder reads:
    the theme's name and the palette tokens, which are colour strings. *)
Record Palette := {
  primary_25 : string;
  primary_100 : string;
  primary_400 : string;
  primary_500 : string;
  primary_600 : string;
  primary_800 : string;
  primary_900 : string;
  contrast_50 : string;
  contrast_200 : string;
  contrast_300 : string;
  contrast_500 : string;
  negative_25 : string;
  negative_300 : string;
  negative_500 : string;
  negative_800 : string;
  negative_900 : string;
}.

Record Theme := {
  themeName : string;
  palette : Palette;
}.

Record ViewStyle := {
  backgroundColor : string;
  borderColor : string;
}.

Record StyleArgs := {
  theme : Theme;
  hovered : bool;
  focused : bool;
  selected : bool;
  disabled : bool;
  hasError : bool;
}.

Record SharedStyles := {
  baseStyles : list ViewStyle;
  baseHoverStyles : list ViewStyle;
  indicatorStyles : list ViewStyle;
}.

(** [t.name === 'light' ? a : b] *)
Definition onLight (t : Theme) (a b : string) : string :=
  if bool_decide (themeName t = "light") then a else b.

Definition createSharedToggleStyles (args : StyleArgs) : SharedStyles :=
  let t := theme args in
  let pal := palette t in
  let base : list ViewStyle := [] in
  let baseHover : list ViewStyle := [] in
  let indicator : list ViewStyle := [] in
  let '(base, baseHover) :=
    if selected args then
      (base ++ [{| backgroundColor := onLight t (primary_25 pal) (primary_900 pal);
                   borderColor := primary_500 pal |}],
       if hovered args || focused args then
         baseHover ++ [{| backgroundColor := onLight t (primary_100 pal) (primary_800 pal);
                          borderColor := onLight t (primary_600 pal) (primary_400 pal) |}]
       else baseHover)
    else
      (base,
       if hovered args || focused args then
         baseHover ++ [{| backgroundColor := contrast_50 pal;
                          borderColor := contrast_500 pal |}]
       else baseHover) in
  let '(base, baseHover) :=
    if hasError args then
      (base ++ [{| backgroundColor := onLight t (negative_25 pal) (negative_900 pal);
                   borderColor := onLight t (negative_300 pal) (negative_800 pal) |}],
       if hovered args || focused args then
         baseHover ++ [{| backgroundColor := onLight t (negative_25 pal) (negative_900 pal);
                          borderColor := negative_500 pal |}]
       else baseHover)
    else (base, baseHover) in
  let base :=
    if disabled args then
      base ++ [{| backgroundColor := contrast_200 pal;
                  borderColor := contrast_300 pal |}]
    else base in
  {| baseStyles := base; baseHoverStyles := baseHover; indicatorStyles := indicator |}.

(** *** Notions the properties are stated with *)

(** The cap in force: [maxSelections] when the Group is a checkbox group
    and the prop is truthy. *)
Definition capOf (p : GroupProps) : option Z :=
  if typeOf p is checkbox then truthy (maxSelections p) else None.

(** The value the second effect drives [maxReached] to. *)
Definition capped (p : GroupProps) (len : nat) : bool :=
  match capOf p with
  | Some m => bool_decide (m ≤ Z.of_nat len)
  | None => false
  end.

(** A Group at rest: both effects have run on the current state and the
    second one has nothing left to set. *)
Definition settled (p : GroupProps) (g : Instance) : Prop :=
  changeDeps g = Some (valuesRef g, onChangeProp g)
  ∧ capDeps g = Some (length (values g), maxReached g)
  ∧ maxReached g = capped p (length (values g)).

(** The state update the second effect makes in the commit of [g]. *)
Definition capUpdate (p : GroupProps) (g : Instance) : option bool :=
  if bool_decide (capDeps g = Some (length (values g), maxReached g)) then None
  else capEffect p (length (values g)) (maxReached g).

(** The calls the first effect makes in the commit of [g]. *)
Definition changeCalls (g : Instance) : list Call :=
  if bool_decide (changeDeps g = Some (valuesRef g, onChangeProp g)) then []
  else [OnChange (onChangeProp g) (values g)].

(** [g] after a commit that left [maxReached] at [reached]. *)
Definition committed (g : Instance) (reached : bool) : Instance :=
  {| values := values g; valuesRef := valuesRef g; maxReached := reached;
     onChangeProp := onChangeProp g;
     changeDeps := Some (valuesRef g, onChangeProp g);
     capDeps := Some (length (values g), maxReached g) |}.

(** The [disabled] a child gets when the cap does not apply to it. *)
Definition ownDisabled (p : GroupProps) (childDisabled : option bool) : option bool :=
  orProp (disabledOf p) childDisabled.

(** *** Sample inputs *)

(** Children that are Items with the given names and no props of their own. *)
Definition itemsNamed (names : list string) : list Child :=
  (λ n, Element n None) <$> names.

Definition zeroCapGroup : GroupProps :=
  {| groupType := Some checkbox; initialValues := Some [];
     maxSelections := Some 0; groupDisabled := None; groupOnChange := 0;
     groupChildren := itemsNamed ["a"] |}.

Definition capTwoGroup : GroupProps :=
  {| groupType := Some checkbox; initialValues := Some ["a"; "b"];
     maxSelections := Some 2; groupDisabled := None; groupOnChange := 0;
     groupChildren := itemsNamed ["a"; "b"; "c"] |}.

Definition checkboxGroupAB : GroupProps :=
  {| groupType := Some checkbox; initialValues := Some ["a"; "b"];
     maxSelections := None; groupDisabled := None; groupOnChange := 0;
     groupChildren := itemsNamed ["a"; "b"] |}.

Definition radioGroupAB : GroupProps :=
  {| groupType := Some radio; initialValues := Some ["a"; "b"];
     maxSelections := None; groupDisabled := None; groupOnChange := 0;
     groupChildren := itemsNamed ["a"; "b"; "c"] |}.

Definition emptyGroup : GroupProps :=
  {| groupType := None; initialValues := Some [];
     maxSelections := None; groupDisabled := None; groupOnChange := 0;
     groupChildren := [] |}.

Definition standaloneItem : ItemProps :=
  {| itemName := "tos"; itemValue := None; itemDisabled := None;
     itemOnChange := Some (External 7); itemHasError := None;
     itemType := None |}.

End Toggle.

(** ** Further notions: runs of the Pager *)

Module PagerRuns.
Import Pager.

(** The index an event carries. *)
Definition eventIndex (e : Event) : Z :=
  match e with
  | TabBarSelect i => i
  | SetPage i => i
  end.

(** The panes of a render that are shown. *)
Definition shown {Node TabBar : Type} (r : Rendered Node TabBar) : list (Pane Node) :=
  filter (λ pn, visible pn = true) (panes r).

End PagerRuns.

(** ** Further notions: children of a Group and the visual variants *)

Module ToggleViews.
Import Toggle.

(** The Item the Group renders from its child [Element name d], and the
    state that Item broadcasts to its descendants. *)
Definition childItem (p : GroupProps) (g : Instance) (c : Child) : option ItemProps :=
  itemOfCloned <$> cloneChild p g c.

Definition childState (p : GroupProps) (g : Instance) (c : Child) (i : Interaction)
  : option ItemState :=
  (λ item, itemState (contextOf p g) item i) <$> childItem p g c.

(** Whether the child named [name] with own prop [d] is out of reach of a
    press: the Group is disabled, the cap holds it back, or it is disabled
    itself. *)
Definition heldBack (p : GroupProps) (g : Instance) (name : string) (d : option bool)
  : bool :=
  disabledOf p
  || (maxReached g && negb (includes (values g) name))
  || default false d.

(** The selection a press on a child named [name] is expected to leave. *)
Definition pressedValues (type : ToggleType) (name : string) (s : list string)
  : list string :=
  match type with
  | radio => [name]
  | checkbox => if includes s name then filter (λ v, v ≠ name) s else s ++ [name]
  end.

(** Presses on children and re-renders: the events that go through the
    props the Group hands down. *)
Definition viaChildren (e : Event) : bool :=
  match e with
  | PressChild _ | Rerender _ => true
  | Activate _ => false
  end.

(** The argument of the latest [onChange] call in a log. *)
Definition lastSelection (calls : list Call) : option (list string) :=
  last (omap (λ c, if c is OnChange _ sel then Some sel else None) calls).

(** The names of the children that are elements. *)
Definition childNames (p : GroupProps) : list string :=
  omap (λ c, if c is Element name _ then Some name else None) (groupChildren p).

(** [Checkbox], [Switch] and [Radio] read the Item state from the context
    and pass it, with the theme, to the style builder. *)
Definition stylesFor (t : Theme) (st : ItemState) : SharedStyles :=
  createSharedToggleStyles
    {| theme := t;
       hovered := stHovered st;
       focused := stFocused st;
       selected := stSelected st;
       disabled := stDisabled st;
       hasError := stHasError st |}.

(** The end of the style array of the three variants:
    [baseStyles, hovered || focused ? baseHoverStyles : {}], as the layers
    it contributes ([{}] contributes none). *)
Definition appliedLayers (t : Theme) (st : ItemState) : list ViewStyle :=
  let styles := stylesFor t st in
  baseStyles styles
    ++ (if stHovered st || stFocused st then baseHoverStyles styles else []).

End ToggleViews.

(** * Properties of the Pager *)

Module PagerSpec.
Import Pager.

Section WithNodes.
Context {Node TabBar Fn : Type}.
Implicit Types (p : Props Node TabBar Fn) (s i : Z) (f : Fn).

(** The calls [f?.(i)] logs. *)
Lemma run_optional_call (o : option Fn) i (rest : list (Effect Fn)) s :
  run (optional_call o i ++ rest) s =
    ((run rest s).1, ((., i) <$> option_list o) ++ (run rest s).2).
Proof.
  destruct o as [f|]; simpl; destruct (run rest s); reflexivity.
Qed.

Lemma step_TabBarSelect p i s :
  step p (TabBarSelect i) s =
    (i, (., i) <$> (option_list (onPageSelected p) ++ option_list (onPageSelecting p))).
Proof.
  unfold step; simpl.
  rewrite run_optional_call.
  rewrite <- (app_nil_r (optional_call (onPageSelecting p) i)).
  rewrite run_optional_call; simpl.
  by rewrite app_nil_r, fmap_app.
Qed.

Lemma step_SetPage p i s : step p (SetPage i) s = (i, []).
Proof. reflexivity. Qed.

Lemma steps_cons p (e : Event) (evs : list Event) s :
  steps p (e :: evs) s =
    ((steps p evs (step p e s).1).1,
     (step p e s).2 ++ (steps p evs (step p e s).1).2).
Proof.
  simpl. destruct (step p e s) as [s1 log1]; simpl.
  by destruct (steps p evs s1).
Qed.

(** C6.  A tab-bar selection of index [i], from any selected page [s]
    ([s = i] included), first calls [setSelectedPage(i)] and then each of
    [onPageSelected] and [onPageSelecting] that the caller passed, once,
    with [i], in this order; the selected page is [i] afterwards.  Over a
    list of selections every selection contributes exactly these calls. *)
Theorem tab_bar_select_notifies_once p i s :
  onTabBarSelect p i =
    SetSelectedPage i
      :: ((λ f, Invoke f i) <$>
            (option_list (onPageSelected p) ++ option_list (onPageSelecting p)))
  ∧ step p (TabBarSelect i) s =
      (i, (., i) <$> (option_list (onPageSelected p) ++ option_list (onPageSelecting p)))
  ∧ (∀ f g, onPageSelected p = Some f → onPageSelecting p = Some g →
       step p (TabBarSelect i) s = (i, [(f, i); (g, i)]))
  ∧ (∀ idxs : list Z,
       (steps p (TabBarSelect <$> idxs) s).2 =
         idxs ≫= λ j, (., j) <$>
           (option_list (onPageSelected p) ++ option_list (onPageSelecting p))).
Proof.
  split_and!.
  - unfold onTabBarSelect, optional_call.
    by destruct (onPageSelected p), (onPageSelecting p).
  - apply step_TabBarSelect.
  - intros f g Hf Hg. by rewrite step_TabBarSelect, Hf, Hg.
  - intros idxs; revert s. induction idxs as [|j idxs IH]; intros s; [done|].
    rewrite fmap_cons, steps_cons, step_TabBarSelect; simpl.
    by rewrite IH.
Qed.

Lemma panes_lookup p s (j : nat) :
  panes (render p s) !! j = pane s j <$> (children p !! j).
Proof. unfold render; simpl. apply list_lookup_imap. Qed.

(** C7.  After [setPage(i)] with [0 <= i < children.length] the render keeps
    one pane per child, in order and under the key of its position; the pane
    at position [i] is visible and no other is.  Which panes exist, their
    keys and their contents do not depend on the selected page. *)
Theorem setPage_shows_exactly_pane_i p s i :
  0 ≤ i < Z.of_nat (length (children p)) →
  let s' := (step p (SetPage i) s).1 in
  let r := render p s' in
  length (panes r) = length (children p)
  ∧ (∀ (j : nat) pn, panes r !! j = Some pn →
       key pn = j ∧ children p !! j = Some (content pn)
       ∧ (visible pn = true ↔ Z.of_nat j = i))
  ∧ (∃ pn, panes r !! Z.to_nat i = Some pn ∧ visible pn = true)
  ∧ length (filter (λ pn, visible pn = true) (panes r)) = 1%nat
  ∧ (∀ s0, (λ pn, (key pn, content pn)) <$> panes (render p s0)
           = (λ pn, (key pn, content pn)) <$> panes r).
Proof.
  intros Hi s' r. subst s' r. rewrite step_SetPage; simpl fst.
  assert (Hlook : ∀ (j : nat) pn, panes (render p i) !! j = Some pn →
       key pn = j ∧ children p !! j = Some (content pn)
       ∧ (visible pn = true ↔ Z.of_nat j = i)).
  { intros j pn. rewrite panes_lookup.
    destruct (children p !! j) as [c|] eqn:Hc; [|done].
    intros [= <-]; simpl. split_and!; [done..|].
    rewrite bool_decide_eq_true. split; congruence. }
  split_and!.
  - unfold render; simpl. apply length_imap.
  - exact Hlook.
  - destruct (lookup_lt_is_Some_2 (children p) (Z.to_nat i)) as [c Hc]; [lia|].
    exists (pane i (Z.to_nat i) c). rewrite panes_lookup, Hc. split; [done|].
    simpl. apply bool_decide_eq_true. lia.
  - unfold render; simpl.
    assert (Hgen : ∀ (l : list Node) (k : nat),
      length (filter (λ pn, visible pn = true) (imap (λ n, pane i (k + n)) l))
      = if bool_decide (Z.of_nat k ≤ i < Z.of_nat (k + length l)) then 1%nat else 0%nat).
    { induction l as [|c l IH]; intros k.
      - simpl. rewrite bool_decide_eq_false_2; [done|lia].
      - rewrite imap_cons, filter_cons. simpl visible.
        rewrite (imap_ext _ (λ n, pane i (S k + n))) by (intros; simpl; f_equal; lia).
        replace (k + 0)%nat with k by lia.
        pose proof (IH (S k)) as IH'.
        destruct (decide (i = Z.of_nat k)) as [->|Hne].
        + rewrite decide_True by (by apply bool_decide_eq_true).
          rewrite length_cons, IH'.
          rewrite bool_decide_eq_false_2 by lia.
          rewrite bool_decide_eq_true_2; [done|rewrite length_cons; lia].
        + rewrite decide_False by (rewrite bool_decide_eq_true; done).
          rewrite IH'.
          rewrite (bool_decide_ext _ (Z.of_nat k ≤ i < Z.of_nat (k + length (c :: l))));
            [done|rewrite length_cons; lia]. }
    specialize (Hgen (children p) 0%nat).
    rewrite (imap_ext _ (pane i)) in Hgen by done.
    rewrite Hgen. rewrite bool_decide_eq_true_2; [done|lia].
  - intros s0. unfold render; simpl.
    rewrite !fmap_imap. by apply imap_ext.
Qed.

(** C10.  [setPage(i)] performs the single effect [setSelectedPage(i)]: it
    leaves the selected page at [i] and calls nothing.  In any run of tab-bar
    selections and [setPage] calls, every callback call carries the index of
    one of the tab-bar selections, and a run of [setPage] calls alone logs no
    call at all. *)
Theorem setPage_only_sets_state p i s :
  setPage i = [SetSelectedPage i :> Effect Fn]
  ∧ step p (SetPage i) s = (i, [])
  ∧ (∀ evs f j, (f, j) ∈ (steps p evs s).2 →
       TabBarSelect j ∈ evs ∧ (onPageSelected p = Some f ∨ onPageSelecting p = Some f))
  ∧ (∀ idxs : list Z, (steps p (SetPage <$> idxs) s).2 = []).
Proof.
  split_and!; [done..| |].
  - intros evs; revert s. induction evs as [|e evs IH]; intros s f j.
    + simpl. by intros ?%elem_of_nil.
    + rewrite steps_cons; simpl. rewrite elem_of_app. intros [Hin|Hin].
      * destruct e as [k|k].
        -- rewrite step_TabBarSelect in Hin; simpl in Hin.
           apply list_elem_of_fmap in Hin as (f' & [= -> ->] & Hf).
           split; [left|].
           apply elem_of_app in Hf as [Hf|Hf]; [left|right].
           ++ destruct (onPageSelected p); simpl in Hf;
                [by apply list_elem_of_singleton in Hf as ->|by apply elem_of_nil in Hf].
           ++ destruct (onPageSelecting p); simpl in Hf;
                [by apply list_elem_of_singleton in Hf as ->|by apply elem_of_nil in Hf].
        -- rewrite step_SetPage in Hin. by apply elem_of_nil in Hin.
      * destruct (IH _ _ _ Hin). split; [by right|done].
  - intros idxs; revert s. induction idxs as [|j idxs IH]; intros s; [done|].
    rewrite fmap_cons, steps_cons, step_SetPage; simpl. apply IH.
Qed.

End WithNodes.

(** Witness of C6: both callbacks given, page 1 selected while it is already
    the selected page. *)
Lemma tab_bar_select_notifies_once_witness :
  let p : Props nat unit string :=
    {| children := [10%nat; 20%nat]; tabBarPosition := Some bottom;
       initialPage := Some 1; renderTabBar := λ _, ();
       onPageSelected := Some "selected"; onPageSelecting := Some "selecting" |} in
  step p (TabBarSelect 1) (initialState p) = (1, [("selected", 1); ("selecting", 1)]).
Proof.
  intros p.
  exact (proj1 (proj2 (proj2 (tab_bar_select_notifies_once p 1 (initialState p))))
           "selected" "selecting" eq_refl eq_refl).
Defined.

(** Witness of C7: three panes, [setPage(1)] from page 0. *)
Lemma setPage_shows_exactly_pane_i_witness :
  let p : Props nat unit unit :=
    {| children := [10%nat; 20%nat; 30%nat]; tabBarPosition := None;
       initialPage := None; renderTabBar := λ _, ();
       onPageSelected := None; onPageSelecting := None |} in
  visible <$> panes (render p (step p (SetPage 1) (initialState p)).1)
    = [false; true; false]
  ∧ length (filter (λ pn, visible pn = true)
              (panes (render p (step p (SetPage 1) (initialState p)).1))) = 1%nat.
Proof.
  intros p. split; [reflexivity|].
  refine (proj1 (proj2 (proj2 (proj2
    (setPage_shows_exactly_pane_i p (initialState p) 1 _))))).
  simpl. lia.
Defined.

End PagerSpec.

(** * Properties of the Toggle family *)

Module ToggleSpec.
Import Toggle.

Implicit Types (p : GroupProps) (g : Instance) (s : list string)
  (fv : FieldValue) (item : ItemProps).

(** ** The effects of a commit *)

Lemma capEffect_no_cap p len r : capOf p = None → capEffect p len r = None.
Proof.
  unfold capOf, capEffect. destruct (typeOf p); [done|]. by intros ->.
Qed.

Lemma capEffect_cap p m len r :
  capOf p = Some m →
  capEffect p len r =
    if bool_decide (r = capped p len) then None else Some (capped p len).
Proof.
  unfold capped. intros Hm. rewrite Hm.
  unfold capOf in Hm. unfold capEffect.
  destruct (typeOf p); [done|]. rewrite Hm.
  destruct r; repeat case_bool_decide; simpl; try done; lia.
Qed.

Lemma capped_no_cap p len : capOf p = None → capped p len = false.
Proof. unfold capped. by intros ->. Qed.

Lemma flush_stable p g n :
  capUpdate p g = None →
  flush (S n) p g = Some (committed g (maxReached g), changeCalls g).
Proof.
  intros H. cbn [flush]. unfold commitEffects. fold (capUpdate p g).
  rewrite H. simpl. by rewrite bool_decide_eq_false_2 by auto.
Qed.

Lemma flush_again p g n b :
  capUpdate p g = Some b → b ≠ maxReached g →
  flush (S n) p g =
    '(g', calls) ← flush n p (committed g b); Some (g', changeCalls g ++ calls).
Proof.
  intros H Hb. cbn [flush]. unfold commitEffects. fold (capUpdate p g).
  rewrite H. simpl. by rewrite bool_decide_eq_true_2 by done.
Qed.

(** The effects stop setting state after at most one extra render. *)
Lemma flush_settles p g n :
  (capDeps g = Some (length (values g), maxReached g) →
     maxReached g = capped p (length (values g))) →
  (capOf p = None → maxReached g = false) →
  ∃ g', flush (S (S n)) p g = Some (g', changeCalls g)
        ∧ values g' = values g ∧ valuesRef g' = valuesRef g
        ∧ onChangeProp g' = onChangeProp g ∧ settled p g'.
Proof.
  intros Hdeps Hnone.
  assert (Hcases :
    capUpdate p g = None ∧ maxReached g = capped p (length (values g))
    ∨ capUpdate p g = Some (capped p (length (values g)))
      ∧ maxReached g ≠ capped p (length (values g)) ∧ is_Some (capOf p)).
  { unfold capUpdate. case_bool_decide as Hd; [left; auto|].
    destruct (capOf p) as [m|] eqn:Hm.
    - rewrite (capEffect_cap p m) by done.
      case_bool_decide; [left|right]; eauto.
    - left. rewrite capEffect_no_cap by done.
      split; [done|]. rewrite capped_no_cap by done. auto. }
  destruct Hcases as [[Hu Hr]|(Hu & Hr & [m Hm])].
  - rewrite flush_stable by done.
    eexists. split; [reflexivity|]. by repeat split.
  - rewrite (flush_again _ _ _ _ Hu) by done.
    rewrite flush_stable; simpl.
    + assert (changeCalls (committed g (capped p (length (values g)))) = [])
        as -> by (unfold changeCalls; simpl; by rewrite bool_decide_eq_true_2).
      rewrite app_nil_r.
      eexists. split; [reflexivity|]. by repeat split.
    + unfold capUpdate; simpl.
      rewrite bool_decide_eq_false_2 by (intros [= ?]; auto).
      rewrite (capEffect_cap p m) by done.
      by rewrite bool_decide_eq_true_2.
Qed.

Lemma updateLimit_enough : updateLimit = S (S 48).
Proof. reflexivity. Qed.

Lemma mount_live p vs :
  initialValues p = Some vs →
  ∃ g, mount p = Live g [OnChange (groupOnChange p) (values g)]
       ∧ values g = (if typeOf p is radio then take 1 vs else vs)
       ∧ settled p g.
Proof.
  intros Hvs. unfold mount, construct. rewrite Hvs, updateLimit_enough.
  edestruct (flush_settles p) as (g' & -> & Hv & _ & _ & Hs);
    [..|exists g'; split_and!; [by rewrite Hv|by rewrite Hv|done]];
    simpl; done.
Qed.

Lemma mount_threw p : initialValues p = None → mount p = Threw missingValues.
Proof. intros H. unfold mount, construct. by rewrite H. Qed.

(** ** Events on a Group at rest *)

Lemma handle_queue_ref p hs g :
  settled p g →
  queuedUpdates (typeOf p) hs ≠ [] →
  ∃ g', handle p hs g =
          Some (g', externalCalls hs ++ [OnChange (onChangeProp g') (values g')])
        ∧ values g' =
            foldl (λ s u, applyUpdate u s) (values g) (queuedUpdates (typeOf p) hs)
        ∧ valuesRef g' = S (valuesRef g)
        ∧ onChangeProp g' = onChangeProp g
        ∧ settled p g'.
Proof.
  intros (Hc & Hd & Hr) Hq. unfold handle.
  destruct (queuedUpdates (typeOf p) hs) as [|u q] eqn:Hqueue; [done|].
  rewrite updateLimit_enough.
  edestruct (flush_settles p (reduce (u :: q) g))
    as (g' & -> & Hv & Href & Hf & Hs).
  - simpl. rewrite Hd. intros [= <-]. done.
  - simpl. intros Hno. by rewrite Hr, capped_no_cap.
  - unfold changeCalls; simpl. rewrite Hc.
    rewrite bool_decide_eq_false_2 by (intros [= ?]; lia).
    exists g'. by rewrite Hv, Hf.
Qed.

Lemma handle_queue p hs g :
  settled p g →
  queuedUpdates (typeOf p) hs ≠ [] →
  ∃ g', handle p hs g =
          Some (g', externalCalls hs ++ [OnChange (onChangeProp g') (values g')])
        ∧ values g' =
            foldl (λ s u, applyUpdate u s) (values g) (queuedUpdates (typeOf p) hs)
        ∧ settled p g'.
Proof.
  intros Hs Hq.
  destruct (handle_queue_ref p hs g Hs Hq) as (g' & ? & ? & _ & _ & ?). eauto.
Qed.

Lemma handle_idle p hs g :
  queuedUpdates (typeOf p) hs = [] → handle p hs g = Some (g, externalCalls hs).
Proof. unfold handle. by intros ->. Qed.

(** The updates [onPress] queues on the Group it is rendered under. *)
Lemma onPress_queue p g item :
  queuedUpdates (typeOf p) (onPress (contextOf p g) item) =
    let arg := {| fieldName := itemName item;
                  fieldValue := negb (default false (itemValue item)) |} in
    setFieldValue (typeOf p) arg
      :: (if itemOnChange item is Some GroupSetter
          then [setFieldValue (typeOf p) arg] else []).
Proof.
  unfold onPress, queuedUpdates; simpl.
  destruct (itemOnChange item) as [[]|]; reflexivity.
Qed.

Lemma activate_settled p item g :
  settled p g →
  ∃ g', activate p item g =
          Some (g', externalCalls (onPress (contextOf p g) item)
                      ++ [OnChange (onChangeProp g') (values g')])
        ∧ values g' =
            foldl (λ s u, applyUpdate u s) (values g)
              (queuedUpdates (typeOf p) (onPress (contextOf p g) item))
        ∧ settled p g'.
Proof.
  intros Hs. apply handle_queue; [done|]. by rewrite onPress_queue.
Qed.

(** A re-render calls [onChange] again, with the selection as it is, exactly
    when the function passed is a different one. *)
Lemma rerender_settled p f g :
  settled p g →
  ∃ g', rerender p f g =
          Some (g', if bool_decide (f = onChangeProp g) then []
                    else [OnChange f (values g)])
        ∧ values g' = values g ∧ valuesRef g' = valuesRef g
        ∧ onChangeProp g' = f ∧ settled p g'.
Proof.
  intros (Hc & Hd & Hr). unfold rerender. rewrite updateLimit_enough.
  edestruct (flush_settles p) as (g' & -> & Hv & Href & Hf & Hs);
    [| |exists g'; split_and!; [|exact Hv|exact Href|exact Hf|exact Hs]].
  - simpl. by intros _.
  - simpl. intros Hno. by rewrite Hr, capped_no_cap.
  - unfold changeCalls; simpl. rewrite Hc.
    rewrite (bool_decide_ext _ (f = onChangeProp g)); [done|].
    split; [by intros [= ->]|by intros ->].
Qed.

Lemma pressChild_settled p k g :
  settled p g →
  ∃ g' calls, pressChild p k g = Some (g', calls) ∧ settled p g'.
Proof.
  intros Hs. unfold pressChild.
  destruct (renderGroup p g !! k) as [[c|]|]; [|by eauto..].
  destruct (decide (queuedUpdates (typeOf p)
                      (pressable (contextOf p g) (itemOfCloned c)) = [])) as [Hq|Hq].
  - rewrite handle_idle by done. eauto.
  - destruct (handle_queue p _ g Hs Hq) as (g' & -> & _ & Hs'). eauto.
Qed.

Lemma step_settled p e g :
  settled p g → ∃ g' calls, step p e g = Some (g', calls) ∧ settled p g'.
Proof.
  intros Hs. destruct e as [k|item|f]; simpl.
  - by apply pressChild_settled.
  - destruct (activate_settled p item g Hs) as (g' & -> & _ & Hs'). eauto.
  - destruct (rerender_settled p f g Hs) as (g' & -> & _ & _ & _ & Hs'). eauto.
Qed.

Lemma steps_settled p evs g :
  settled p g → ∃ g' calls, steps p evs g = Some (g', calls) ∧ settled p g'.
Proof.
  revert g. induction evs as [|e evs IH]; intros g Hs; simpl; [by eauto|].
  destruct (step_settled p e g Hs) as (g1 & c1 & -> & Hs1); simpl.
  destruct (IH g1 Hs1) as (g2 & c2 & -> & Hs2); simpl. eauto.
Qed.

Lemma steps_snoc p evs e g g1 c1 :
  steps p evs g = Some (g1, c1) →
  steps p (evs ++ [e]) g =
    '(g2, c2) ← step p e g1; Some (g2, c1 ++ c2).
Proof.
  revert g c1. induction evs as [|e0 evs IH]; intros g c1; simpl.
  - intros [= -> <-]. destruct (step p e g1) as [[g2 c2]|]; simpl; [|done].
    by rewrite app_nil_r.
  - destruct (step p e0 g) as [[g0 c0]|]; simpl; [|done].
    destruct (steps p evs g0) as [[g' c']|] eqn:Hsteps; simpl; [|done].
    intros [= -> <-]. rewrite (IH _ _ Hsteps).
    destruct (step p e g1) as [[g2 c2]|]; simpl; [|done].
    by rewrite app_assoc.
Qed.

Lemma mount_settled p g calls : mount p = Live g calls → settled p g.
Proof.
  destruct (initialValues p) as [vs|] eqn:Hvs.
  - destruct (mount_live p vs Hvs) as (g' & -> & _ & Hs). by intros [= <- _].
  - by rewrite mount_threw.
Qed.


(** ** Radio groups *)

Lemma radio_queue_size (hs : list (Handler * FieldValue)) s :
  (length s ≤ 1)%nat →
  (length (foldl (λ s u, applyUpdate u s) s (queuedUpdates radio hs)) ≤ 1)%nat.
Proof.
  revert s. induction hs as [|[h fv] hs IH]; intros s Hs; [done|].
  unfold queuedUpdates. rewrite bind_cons. fold (queuedUpdates radio hs).
  rewrite foldl_app. apply IH. destruct h; simpl; by try lia.
Qed.

Lemma handle_radio_size p hs g g' calls :
  typeOf p = radio → settled p g → (length (values g) ≤ 1)%nat →
  handle p hs g = Some (g', calls) → (length (values g') ≤ 1)%nat.
Proof.
  intros Hty Hs Hlen.
  destruct (decide (queuedUpdates (typeOf p) hs = [])) as [Hq|Hq].
  - rewrite handle_idle by done. by intros [= <- _].
  - destruct (handle_queue p hs g Hs Hq) as (g1 & -> & Hv & _).
    intros [= <- _]. rewrite Hv, Hty. by apply radio_queue_size.
Qed.

Lemma step_radio_size p e g g' calls :
  typeOf p = radio → settled p g → (length (values g) ≤ 1)%nat →
  step p e g = Some (g', calls) → (length (values g') ≤ 1)%nat.
Proof.
  intros Hty Hs Hlen. destruct e as [k|item|f]; simpl.
  - unfold pressChild. destruct (renderGroup p g !! k) as [[c|]|].
    + by apply handle_radio_size.
    + by intros [= <- _].
    + by intros [= <- _].
  - by apply handle_radio_size.
  - destruct (rerender_settled p f g Hs) as (g1 & -> & Hv & _).
    intros [= <- _]. by rewrite Hv.
Qed.

Lemma steps_radio_size p evs g :
  typeOf p = radio → settled p g → (length (values g) ≤ 1)%nat →
  ∃ g' calls, steps p evs g = Some (g', calls)
              ∧ settled p g' ∧ (length (values g') ≤ 1)%nat.
Proof.
  intros Hty. revert g. induction evs as [|e evs IH]; intros g Hs Hlen; simpl.
  - by eauto.
  - destruct (step_settled p e g Hs) as (g1 & c1 & He & Hs1).
    pose proof (step_radio_size p e g g1 c1 Hty Hs Hlen He) as Hlen1.
    rewrite He; simpl.
    destruct (IH g1 Hs1 Hlen1) as (g2 & c2 & -> & Hs2 & Hlen2); simpl. eauto.
Qed.

Lemma activate_radio p item g :
  typeOf p = radio → settled p g →
  ∃ g' calls, activate p item g = Some (g', calls) ∧ values g' = [itemName item].
Proof.
  intros Hty Hs.
  destruct (activate_settled p item g Hs) as (g' & -> & Hv & _).
  eexists _, _; split; [done|].
  rewrite Hv, onPress_queue, Hty; simpl.
  by destruct (itemOnChange item) as [[]|].
Qed.

(** C1.  In a radio Group the selection starts as the first element (if
    any) of the initial values, holds at most one name after any run of
    events, and after a run that ends with the activation of an Item it is
    exactly that Item's name. *)
Theorem radio_selection_is_last_activated p :
  typeOf p = radio →
  (∀ vs, initialValues p = Some vs →
     ∃ g calls, mount p = Live g calls ∧ values g = take 1 vs)
  ∧ (∀ g0 calls0, mount p = Live g0 calls0 →
       (length (values g0) ≤ 1)%nat
       ∧ (∀ evs, ∃ g calls,
            steps p evs g0 = Some (g, calls) ∧ (length (values g) ≤ 1)%nat)
       ∧ (∀ evs item, ∃ g calls,
            steps p (evs ++ [Activate item]) g0 = Some (g, calls)
            ∧ values g = [itemName item])).
Proof.
  intros Hty. split.
  - intros vs Hvs. destruct (mount_live p vs Hvs) as (g & Hm & Hv & _).
    rewrite Hty in Hv. eauto.
  - intros g0 calls0 Hm.
    pose proof (mount_settled p g0 calls0 Hm) as Hs0.
    assert (Hlen0 : (length (values g0) ≤ 1)%nat).
    { destruct (initialValues p) as [vs|] eqn:Hvs;
        [|by rewrite mount_threw in Hm].
      destruct (mount_live p vs Hvs) as (g & Hm' & Hv & _).
      rewrite Hm in Hm'. injection Hm' as -> _.
      rewrite Hv, Hty, length_take. lia. }
    split_and!; [done| |].
    + intros evs.
      destruct (steps_radio_size p evs g0 Hty Hs0 Hlen0) as (g & c & ? & _ & ?).
      eauto.
    + intros evs item.
      destruct (steps_settled p evs g0 Hs0) as (g1 & c1 & Hsteps & Hs1).
      rewrite (steps_snoc _ _ _ _ _ _ Hsteps). simpl.
      destruct (activate_radio p item g1 Hty Hs1) as (g2 & c2 & -> & Hv).
      simpl. eauto.
Qed.

(** ** Checkbox groups *)

(** C2.  In a checkbox Group the field setter applied to [{name, v}] on a
    selection [s] yields [s] without any occurrence of [name], followed by
    [name] iff [v]; [name] occurs in the result at most once, at the end;
    when [v] is the membership of [name] in [s], the result has the same
    members as [s]. *)
Theorem checkbox_setter_removes_then_appends (name : string) (v : bool) s :
  let s' := applyUpdate
              (setFieldValue checkbox {| fieldName := name; fieldValue := v |}) s in
  s' = filter (λ x, x ≠ name) s ++ (if v then [name] else [])
  ∧ (name ∉ filter (λ x, x ≠ name) s)
  ∧ (name ∈ s' ↔ v = true)
  ∧ (∀ x, x ≠ name → (x ∈ s' ↔ x ∈ s))
  ∧ (v = includes s name → ∀ x, x ∈ s' ↔ x ∈ s).
Proof.
  simpl.
  assert (Hnot : name ∉ filter (λ x, x ≠ name) s).
  { rewrite list_elem_of_filter. by intros [? _]. }
  assert (Hother : ∀ x, x ≠ name →
    (x ∈ (if v then filter (λ x, x ≠ name) s ++ [name]
          else filter (λ x, x ≠ name) s) ↔ x ∈ s)).
  { intros x Hx. destruct v.
    - rewrite elem_of_app, list_elem_of_filter, list_elem_of_singleton. tauto.
    - rewrite list_elem_of_filter. tauto. }
  split_and!.
  - destruct v; [done|by rewrite app_nil_r].
  - done.
  - destruct v.
    + rewrite elem_of_app, list_elem_of_singleton. tauto.
    + split; [by intros ?%Hnot|done].
  - done.
  - intros Hv x. destruct (decide (x = name)) as [->|Hx]; [|by apply Hother].
    unfold includes in Hv. destruct v.
    + symmetry in Hv. apply bool_decide_eq_true in Hv.
      rewrite elem_of_app, list_elem_of_singleton. tauto.
    + symmetry in Hv. apply bool_decide_eq_false in Hv.
      split; [by intros ?%Hnot|done].
Qed.


(** Witness of C1: the radio group with initial values a, b; press the
    third child, then activate an Item named b. *)
Lemma radio_selection_is_last_activated_witness :
  typeOf radioGroupAB = radio
  ∧ ∃ g0 calls0, mount radioGroupAB = Live g0 calls0
    ∧ values g0 = ["a"]
    ∧ ∃ g calls,
        steps radioGroupAB
          ([PressChild 2] ++ [Activate (itemOfCloned
             {| clonedName := "b"; clonedDisabled := None; clonedType := radio;
                clonedValue := false; clonedOnChange := GroupSetter |})]) g0
          = Some (g, calls)
        ∧ values g = ["b"].
Proof.
  split; [reflexivity|].
  eexists _, _. split; [reflexivity|]. split; [reflexivity|].
  exact (proj2 (proj2 (proj2 (radio_selection_is_last_activated radioGroupAB eq_refl)
                         _ _ eq_refl)) [PressChild 2] _).
Defined.

Lemma renderGroup_lookup p g (k : nat) :
  renderGroup p g !! k = cloneChild p g <$> (groupChildren p !! k).
Proof. apply list_lookup_fmap. Qed.

Lemma capOf_checkbox p m :
  typeOf p = checkbox → maxSelections p = Some m → m ≠ 0 → capOf p = Some m.
Proof.
  unfold capOf. intros -> -> Hm. by destruct m.
Qed.

Lemma reachable_settled p g0 calls0 evs :
  mount p = Live g0 calls0 →
  ∃ g calls, steps p evs g0 = Some (g, calls) ∧ settled p g.
Proof.
  intros Hm. apply steps_settled. by eapply mount_settled.
Qed.

(** What a Group at rest under a cap [m] hands to its children. *)
Lemma settled_cap_render p m g :
  capOf p = Some m → settled p g →
  (maxReached g = true ↔ m ≤ Z.of_nat (length (values g)))
  ∧ ∀ (k : nat) name d, groupChildren p !! k = Some (Element name d) →
      ∃ c, renderGroup p g !! k = Some (Some c)
        ∧ clonedName c = name
        ∧ clonedValue c = includes (values g) name
        ∧ (m ≤ Z.of_nat (length (values g)) → clonedValue c = false →
             clonedDisabled c = Some true)
        ∧ (clonedValue c = true → clonedDisabled c = ownDisabled p d)
        ∧ (Z.of_nat (length (values g)) < m →
             clonedDisabled c = ownDisabled p d).
Proof.
  intros Hcap (_ & _ & Hr). unfold capped in Hr. rewrite Hcap in Hr.
  split.
  - rewrite Hr. apply bool_decide_eq_true.
  - intros k name d Hk. rewrite renderGroup_lookup, Hk. simpl.
    eexists. split; [reflexivity|]. simpl. rewrite Hr.
    split_and!; [done..| | |].
    + intros Hle ->. by rewrite bool_decide_eq_true_2.
    + intros ->. by rewrite andb_false_r.
    + intros Hlt. by rewrite bool_decide_eq_false_2 by lia.
Qed.

(** C3, as the code has it.  In a checkbox Group with [maxSelections = m],
    [m] not zero, at rest after mounting and any run of events: the
    max-reached flag is set exactly when the selection size is at least [m];
    when it is, every child that is not selected is handed [disabled = true];
    a selected child is handed the [disabled] it would get without a cap
    (the Group's [disabled] or its own), and so is every child when the size
    is below [m]. *)
Theorem cap_disables_unselected p m g0 calls0 evs :
  typeOf p = checkbox → maxSelections p = Some m → m ≠ 0 →
  mount p = Live g0 calls0 →
  ∃ g calls, steps p evs g0 = Some (g, calls)
    ∧ (maxReached g = true ↔ m ≤ Z.of_nat (length (values g)))
    ∧ ∀ (k : nat) name d, groupChildren p !! k = Some (Element name d) →
        ∃ c, renderGroup p g !! k = Some (Some c)
          ∧ clonedName c = name
          ∧ clonedValue c = includes (values g) name
          ∧ (m ≤ Z.of_nat (length (values g)) → clonedValue c = false →
               clonedDisabled c = Some true)
          ∧ (clonedValue c = true → clonedDisabled c = ownDisabled p d)
          ∧ (Z.of_nat (length (values g)) < m →
               clonedDisabled c = ownDisabled p d).
Proof.
  intros Hty Hmax Hm0 Hmount.
  destruct (reachable_settled p g0 calls0 evs Hmount) as (g & calls & Hsteps & Hs).
  exists g, calls. split; [done|].
  apply settled_cap_render; [by apply capOf_checkbox|done].
Qed.

(** Witness of C3: cap 2 with a, b selected and c not; then a is pressed. *)
Lemma cap_disables_unselected_witness :
  typeOf capTwoGroup = checkbox ∧ maxSelections capTwoGroup = Some 2 ∧ 2 ≠ 0
  ∧ ∃ g0 calls0, mount capTwoGroup = Live g0 calls0
    ∧ clonedDisabled <$> omap id (renderGroup capTwoGroup g0)
        = [None; None; Some true]
    ∧ ∃ g calls, steps capTwoGroup [PressChild 0] g0 = Some (g, calls)
      ∧ (maxReached g = true ↔ 2 ≤ Z.of_nat (length (values g)))
      ∧ ∀ (k : nat) name d,
          groupChildren capTwoGroup !! k = Some (Element name d) →
          ∃ c, renderGroup capTwoGroup g !! k = Some (Some c)
            ∧ clonedName c = name
            ∧ clonedValue c = includes (values g) name
            ∧ (2 ≤ Z.of_nat (length (values g)) → clonedValue c = false →
                 clonedDisabled c = Some true)
            ∧ (clonedValue c = true → clonedDisabled c = ownDisabled capTwoGroup d)
            ∧ (Z.of_nat (length (values g)) < 2 →
                 clonedDisabled c = ownDisabled capTwoGroup d).
Proof.
  split; [reflexivity|]. split; [reflexivity|]. split; [lia|].
  eexists _, _. split; [reflexivity|]. split; [reflexivity|].
  apply (cap_disables_unselected capTwoGroup 2 _ _ [PressChild 0]
           eq_refl eq_refl ltac:(lia) eq_refl).
Defined.

(** C3 as stated fails for a cap of zero: [maxSelections && ...] is false,
    the flag is never set, and with the empty selection (size 0, not below
    the cap) the unselected child is not handed [disabled = true]. *)
Lemma zero_cap_disables_nothing :
  typeOf zeroCapGroup = checkbox ∧ maxSelections zeroCapGroup = Some 0
  ∧ ¬ (∀ g calls, mount zeroCapGroup = Live g calls →
         0 ≤ Z.of_nat (length (values g)) →
         ∀ c, Some c ∈ renderGroup zeroCapGroup g → clonedValue c = false →
              clonedDisabled c = Some true).
Proof.
  split; [reflexivity|]. split; [reflexivity|].
  intros H.
  specialize (H _ _ eq_refl ltac:(simpl; lia)
                {| clonedName := "a"; clonedDisabled := None; clonedType := checkbox;
                   clonedValue := false; clonedOnChange := GroupSetter |}).
  discriminate H; [|reflexivity].
  apply list_elem_of_singleton. reflexivity.
Qed.

(** The flag is state set by an effect: in the render that first sees the
    selection at the cap it is still clear.  Here the first render of a
    Group mounted with one value and a cap of one. *)
Lemma cap_flag_set_after_render :
  let p := {| groupType := None; initialValues := Some ["a"];
              maxSelections := Some 1; groupDisabled := None; groupOnChange := 0;
              groupChildren := itemsNamed ["a"; "b"] |} in
  ∃ g, construct p = inr g
    ∧ clonedDisabled <$> omap id (renderGroup p g) = [None; None]
    ∧ ∃ g' calls, mount p = Live g' calls
        ∧ clonedDisabled <$> omap id (renderGroup p g') = [None; Some true].
Proof.
  intros p. eexists. split; [reflexivity|]. split; [reflexivity|].
  eexists _, _. split; reflexivity.
Qed.


(** ** The Group's [onChange] *)

(** A press on a child either runs its [onPress], which stores a new array
    and makes one [onChange] call with it, or is dropped. *)
Lemma pressChild_cases p k g :
  settled p g →
  ∃ g' calls, pressChild p k g = Some (g', calls)
    ∧ (calls = [OnChange (onChangeProp g) (values g')]
         ∧ valuesRef g' = S (valuesRef g)
       ∨ calls = [] ∧ g' = g).
Proof.
  intros Hs. unfold pressChild. rewrite renderGroup_lookup.
  destruct (groupChildren p !! k) as [[name d|]|]; simpl;
    [|by eexists _, _; split; [reflexivity|right]..].
  unfold pressable.
  match goal with |- context [disabledIn ?ctx ?it] => destruct (disabledIn ctx it) end.
  - rewrite handle_idle by done. simpl.
    eexists _, _. split; [reflexivity|by right].
  - match goal with |- context [handle p ?hs g] =>
      destruct (handle_queue_ref p hs g Hs) as (g' & -> & _ & Href & <- & _); [done|]
    end.
    simpl. eexists _, _. split; [reflexivity|by left].
Qed.

Lemma activate_cases p item g :
  settled p g →
  ∃ g', activate p item g =
          Some (g', externalCalls (onPress (contextOf p g) item)
                      ++ [OnChange (onChangeProp g) (values g')])
        ∧ values g' =
            foldl (λ s u, applyUpdate u s) (values g)
              (queuedUpdates (typeOf p) (onPress (contextOf p g) item))
        ∧ valuesRef g' = S (valuesRef g).
Proof.
  intros Hs.
  destruct (handle_queue_ref p (onPress (contextOf p g) item) g Hs)
    as (g' & Hh & Hv & Href & <- & _); [by rewrite onPress_queue|].
  exists g'. by split_and!.
Qed.

Lemma steps_deterministic_settled p g0 calls0 evs g calls :
  mount p = Live g0 calls0 → steps p evs g0 = Some (g, calls) → settled p g.
Proof.
  intros Hm Hsteps.
  destruct (reachable_settled p g0 calls0 evs Hm) as (g' & c' & Hsteps' & Hs).
  rewrite Hsteps in Hsteps'. by injection Hsteps' as -> _.
Qed.

(** C4, as the code has it.  Mounting a Group calls [onChange] once, with
    the initial selection: the [values] prop, or its first element only for
    a radio Group.  From any state reached afterwards, an activation of an
    Item below the Group stores a new selection and is followed by exactly
    one [onChange] call, with the whole new selection (a call of the Item's
    own external [onChange] comes before it); a press on a child does the
    same or, when the child is disabled or not an element, changes nothing
    and calls nothing; a re-render that leaves the selection alone calls
    [onChange] only if it brings a new [onChange] function.  With
    [values = [a; b]] and type checkbox the mount call carries [[a; b]] and
    pressing the selected child a gives a call with [[b]]. *)
Theorem onChange_once_per_change p :
  (∀ vs, initialValues p = Some vs →
     ∃ g, mount p = Live g [OnChange (groupOnChange p) (values g)]
          ∧ values g = (if typeOf p is radio then take 1 vs else vs)
          ∧ (typeOf p = checkbox → values g = vs))
  ∧ (∀ g0 calls0 evs g calls,
       mount p = Live g0 calls0 → steps p evs g0 = Some (g, calls) →
       (∀ item, ∃ g',
          activate p item g =
            Some (g', externalCalls (onPress (contextOf p g) item)
                        ++ [OnChange (onChangeProp g) (values g')])
          ∧ values g' =
              foldl (λ s u, applyUpdate u s) (values g)
                (queuedUpdates (typeOf p) (onPress (contextOf p g) item))
          ∧ valuesRef g' = S (valuesRef g))
       ∧ (∀ k, ∃ g' calls',
            pressChild p k g = Some (g', calls')
            ∧ (calls' = [OnChange (onChangeProp g) (values g')]
                 ∧ valuesRef g' = S (valuesRef g)
               ∨ calls' = [] ∧ g' = g))
       ∧ (∀ f, ∃ g',
            rerender p f g =
              Some (g', if bool_decide (f = onChangeProp g) then []
                        else [OnChange f (values g)])
            ∧ values g' = values g ∧ valuesRef g' = valuesRef g))
  ∧ (∃ g0 g1, mount checkboxGroupAB = Live g0 [OnChange 0 ["a"; "b"]]
              ∧ pressChild checkboxGroupAB 0 g0 = Some (g1, [OnChange 0 ["b"]])).
Proof.
  split_and!.
  - intros vs Hvs. destruct (mount_live p vs Hvs) as (g & Hm & Hv & _).
    exists g. split_and!; [done..|].
    intros Hty. by rewrite Hv, Hty.
  - intros g0 calls0 evs g calls Hm Hsteps.
    pose proof (steps_deterministic_settled _ _ _ _ _ _ Hm Hsteps) as Hs.
    split_and!.
    + intros item. by apply activate_cases.
    + intros k. by apply pressChild_cases.
    + intros f.
      destruct (rerender_settled p f g Hs) as (g' & ? & ? & ? & _). eauto.
  - eexists _, _. split; reflexivity.
Qed.

(** Witness of C4: the checkbox group with a, b selected; a is pressed, then
    an Item named c with an [onChange] of its own is activated. *)
Lemma onChange_once_per_change_witness :
  ∃ g0 g1,
    mount checkboxGroupAB = Live g0 [OnChange 0 ["a"; "b"]]
    ∧ steps checkboxGroupAB [PressChild 0] g0 = Some (g1, [OnChange 0 ["b"]])
    ∧ ∃ g2,
        activate checkboxGroupAB
          {| itemName := "c"; itemValue := None; itemDisabled := None;
             itemOnChange := Some (External 3); itemHasError := None;
             itemType := None |} g1
        = Some (g2, [ItemOnChange 3 {| fieldName := "c"; fieldValue := true |};
                     OnChange 0 ["b"; "c"]])
        ∧ values g2 = ["b"; "c"].
Proof.
  eexists _, _. split; [reflexivity|]. split; [reflexivity|].
  destruct (proj1 (proj1 (proj2 (onChange_once_per_change checkboxGroupAB))
              _ _ [PressChild 0] _ _ eq_refl eq_refl)
              {| itemName := "c"; itemValue := None; itemDisabled := None;
                 itemOnChange := Some (External 3); itemHasError := None;
                 itemType := None |}) as (g2 & Hact & Hv & _).
  exists g2. split; [|exact Hv].
  rewrite Hact. rewrite Hv. reflexivity.
Defined.

(** ** Errors *)

(** C5.  [Group] throws exactly when [values] is absent, and then it throws
    the one error of the family, before any state exists and before any
    call is made.  With [values] present, the empty list included, the Group
    mounts, its effects come to rest within the update limit, and no run of
    events fails afterwards. *)
Theorem group_throws_iff_values_missing p :
  (initialValues p = None ↔ construct p = inl missingValues)
  ∧ (initialValues p = None ↔ mount p = Threw missingValues)
  ∧ (∀ e, mount p = Threw e → e = missingValues)
  ∧ (∀ vs, initialValues p = Some vs →
       ∃ g calls, mount p = Live g calls
         ∧ ∀ evs, is_Some (steps p evs g))
  ∧ mount p ≠ Diverged
  ∧ (∃ g calls, mount emptyGroup = Live g calls ∧ values g = []).
Proof.
  destruct (initialValues p) as [vs|] eqn:Hvs.
  - destruct (mount_live p vs Hvs) as (g & Hm & _ & Hs).
    split_and!.
    + unfold construct. rewrite Hvs. split; discriminate.
    + rewrite Hm. split; discriminate.
    + intros e. by rewrite Hm.
    + intros vs' _. exists g, [OnChange (groupOnChange p) (values g)].
      split; [done|].
      intros evs. destruct (steps_settled p evs g Hs) as (g' & c & -> & _).
      by eexists.
    + by rewrite Hm.
    + eexists _, _. split; reflexivity.
  - pose proof (mount_threw p Hvs) as Hm.
    split_and!.
    + unfold construct. by rewrite Hvs.
    + by rewrite Hm.
    + intros e. rewrite Hm. by intros [= <-].
    + intros vs. discriminate.
    + by rewrite Hm.
    + eexists _, _. split; reflexivity.
Qed.

(** Witness of C5: no [values] throws; the empty list mounts. *)
Lemma group_throws_iff_values_missing_witness :
  mount {| groupType := None; initialValues := None; maxSelections := None;
           groupDisabled := None; groupOnChange := 0;
           groupChildren := itemsNamed ["a"] |}
    = Threw (ConfigError "Don't forget to pass in 'values' to your Toggle.Group")
  ∧ ∃ g calls, mount emptyGroup = Live g calls
      ∧ ∀ evs, is_Some (steps emptyGroup evs g).
Proof.
  split.
  - exact (proj1 (proj1 (proj2 (group_throws_iff_values_missing
             {| groupType := None; initialValues := None; maxSelections := None;
                groupDisabled := None; groupOnChange := 0;
           groupChildren := itemsNamed ["a"] |})))
           eq_refl).
  - exact (proj1 (proj2 (proj2 (proj2 (group_throws_iff_values_missing emptyGroup))))
             [] eq_refl).
Defined.


(** ** Items *)

(** C8.  [onPress] of an Item calls the field setter of its context with
    the Item's name and the negation of its [value], and then the Item's own
    [onChange], if it has one, with the same argument; nothing else, and
    whatever the state of the Item or of the Group.  Under a Group the first
    call queues the Group's update.  Outside any Group the setter is the
    no-op of the default context: no update is queued anywhere, and the
    caller sees the call of the Item's own [onChange] alone. *)
Theorem item_press_calls_setter_then_onChange ctx item :
  let arg := {| fieldName := itemName item;
                fieldValue := negb (default false (itemValue item)) |} in
  onPress ctx item =
    (ctxSetFieldValue ctx, arg) :: ((., arg) <$> option_list (itemOnChange item))
  ∧ (∀ h, itemOnChange item = Some h →
       onPress ctx item = [(ctxSetFieldValue ctx, arg); (h, arg)])
  ∧ (∀ p g, ∃ rest,
       onPress (contextOf p g) item = (GroupSetter, arg) :: rest
       ∧ queuedUpdates (typeOf p) (onPress (contextOf p g) item)
           = setFieldValue (typeOf p) arg :: queuedUpdates (typeOf p) rest)
  ∧ (∀ f, itemOnChange item = Some (External f) →
       onPress defaultContext item = [(Noop, arg); (External f, arg)]
       ∧ externalCalls (onPress defaultContext item) = [ItemOnChange f arg]
       ∧ ∀ type, queuedUpdates type (onPress defaultContext item) = [])
  ∧ (itemOnChange item = None →
       onPress defaultContext item = [(Noop, arg)]
       ∧ externalCalls (onPress defaultContext item) = []
       ∧ ∀ type, queuedUpdates type (onPress defaultContext item) = []).
Proof.
  intros arg. subst arg. unfold onPress. split_and!.
  - by destruct (itemOnChange item).
  - by intros h ->.
  - intros p g. eexists. split; reflexivity.
  - by intros f ->.
  - by intros ->.
Qed.

(** Witness of C8: an unselected Item outside any Group, with a caller's
    [onChange]. *)
Lemma item_press_calls_setter_then_onChange_witness :
  onPress defaultContext standaloneItem =
    [(Noop, {| fieldName := "tos"; fieldValue := true |});
     (External 7, {| fieldName := "tos"; fieldValue := true |})]
  ∧ externalCalls (onPress defaultContext standaloneItem) =
      [ItemOnChange 7 {| fieldName := "tos"; fieldValue := true |}]
  ∧ ∀ type, queuedUpdates type (onPress defaultContext standaloneItem) = [].
Proof.
  exact (proj1 (proj2 (proj2 (proj2
    (item_press_calls_setter_then_onChange defaultContext standaloneItem))))
    7%nat eq_refl).
Defined.

(** ** Shared styles *)

(** C9.  For [selected], [hasError] and [disabled] all true the base styles
    are the selected layer, the error layer and the disabled layer, in this
    order, whatever the hover and focus flags.  For every input: the disabled
    layer, when present, is the last base style; there are hover styles only
    if [hovered] or [focused]; the indicator styles are empty; and inputs
    that agree on the six fields give the same result. *)
Theorem shared_styles_layers (t : Theme) (hov foc : bool) :
  let pal := palette t in
  let disabledLayer :=
    {| backgroundColor := contrast_200 pal; borderColor := contrast_300 pal |} in
  baseStyles (createSharedToggleStyles
                {| theme := t; hovered := hov; focused := foc;
                   selected := true; disabled := true; hasError := true |})
    = [ {| backgroundColor := onLight t (primary_25 pal) (primary_900 pal);
           borderColor := primary_500 pal |};
        {| backgroundColor := onLight t (negative_25 pal) (negative_900 pal);
           borderColor := onLight t (negative_300 pal) (negative_800 pal) |};
        disabledLayer ]
  ∧ (∀ args, theme args = t → disabled args = true →
       last (baseStyles (createSharedToggleStyles args)) = Some disabledLayer)
  ∧ (∀ args, baseHoverStyles (createSharedToggleStyles args) ≠ [] →
       hovered args || focused args = true)
  ∧ (∀ args, hovered args || focused args = false →
       baseHoverStyles (createSharedToggleStyles args) = [])
  ∧ (∀ args, indicatorStyles (createSharedToggleStyles args) = [])
  ∧ (∀ a b, theme a = theme b → hovered a = hovered b → focused a = focused b →
       selected a = selected b → disabled a = disabled b →
       hasError a = hasError b →
       createSharedToggleStyles a = createSharedToggleStyles b).
Proof.
  intros pal disabledLayer. subst pal disabledLayer. split_and!.
  - unfold createSharedToggleStyles; simpl. by destruct (hov || foc).
  - intros args <- Hd. unfold createSharedToggleStyles. rewrite Hd.
    destruct (selected args), (hasError args), (hovered args || focused args);
      reflexivity.
  - intros args. unfold createSharedToggleStyles.
    destruct (hovered args || focused args); [done|].
    by destruct (selected args), (hasError args), (disabled args).
  - intros args H. unfold createSharedToggleStyles. rewrite H.
    by destruct (selected args), (hasError args), (disabled args).
  - intros args. unfold createSharedToggleStyles.
    by destruct (selected args), (hasError args), (disabled args),
      (hovered args || focused args).
  - intros [] []; simpl. by intros -> -> -> -> -> ->.
Qed.


(** C4 as stated fails for a radio Group mounted with two values: the one
    call made on mount carries the first value only, not the initial
    values. *)
Lemma radio_mount_reports_first_value_only :
  typeOf radioGroupAB = radio
  ∧ ¬ (∀ vs g calls, initialValues radioGroupAB = Some vs →
         mount radioGroupAB = Live g calls → calls = [OnChange 0 vs]).
Proof.
  split; [reflexivity|]. intros H.
  specialize (H ["a"; "b"] _ _ eq_refl eq_refl). discriminate H.
Qed.

End ToggleSpec.

(** * Further properties of the Pager *)

Module PagerRunsSpec.
Import Pager PagerRuns.

Section WithNodes.
Context {Node TabBar Fn : Type}.
Implicit Types (p : Props Node TabBar Fn) (s i : Z) (f : Fn).

(** Panes numbered from [k] on: the one numbered [s], if there is one, is
    the only one shown. *)
Lemma shown_from s (l : list Node) (k : nat) :
  filter (λ pn, visible pn = true) (imap (λ n, pane s (k + n)) l) =
    match l !! (Z.to_nat s - k)%nat with
    | Some c =>
        if bool_decide (Z.of_nat k ≤ s) then [pane s (Z.to_nat s) c] else []
    | None => []
    end.
Proof.
  revert k. induction l as [|c l IH]; intros k; [done|].
  rewrite imap_cons, filter_cons. simpl visible.
  rewrite (imap_ext _ (λ n, pane s (S k + n))) by (intros; simpl; f_equal; lia).
  rewrite IH. replace (k + 0)%nat with k by lia.
  destruct (decide (s = Z.of_nat k)) as [->|Hne].
  - rewrite decide_True by (by apply bool_decide_eq_true).
    rewrite Nat2Z.id. replace (k - S k)%nat with 0%nat by lia.
    replace (k - k)%nat with 0%nat by lia. simpl.
    rewrite (bool_decide_eq_true_2 (Z.of_nat k ≤ Z.of_nat k)) by lia.
    rewrite (bool_decide_eq_false_2 (Z.of_nat (S k) ≤ Z.of_nat k)) by lia.
    by destruct (l !! 0%nat).
  - rewrite decide_False by (rewrite bool_decide_eq_true; done).
    destruct (decide (Z.of_nat k ≤ s)) as [Hle|Hgt].
    + replace (Z.to_nat s - k)%nat with (S (Z.to_nat s - S k)) by lia. simpl.
      rewrite (bool_decide_eq_true_2 (Z.of_nat (S k) ≤ s)) by lia.
      by rewrite (bool_decide_eq_true_2 (Z.of_nat k ≤ s)).
    + rewrite (bool_decide_eq_false_2 (Z.of_nat k ≤ s)) by done.
      rewrite (bool_decide_eq_false_2 (Z.of_nat (S k) ≤ s)) by lia.
      by destruct (l !! _), ((c :: l) !! _).
Qed.

Lemma shown_render p s :
  shown (render p s) =
    if bool_decide (0 ≤ s) then
      match children p !! Z.to_nat s with
      | Some c => [pane s (Z.to_nat s) c]
      | None => []
      end
    else [].
Proof.
  unfold shown, render; simpl.
  pose proof (shown_from s (children p) 0) as H.
  rewrite (imap_ext _ (pane s)) in H by done. rewrite H.
  replace (Z.to_nat s - 0)%nat with (Z.to_nat s) by lia.
  change (Z.of_nat 0) with 0.
  by destruct (children p !! Z.to_nat s), (bool_decide (0 ≤ s)).
Qed.

(** X1.  Whatever the selected index, every child keeps its pane, and the
    panes shown are: the one at the selected index when it is within
    bounds, none when it is negative or past the last child.  Mounted
    without [initialPage], a Pager with children shows the first one. *)
Theorem pager_shows_at_most_one p s :
  length (panes (render p s)) = length (children p)
  ∧ (∀ c, 0 ≤ s → children p !! Z.to_nat s = Some c →
       shown (render p s) = [{| key := Z.to_nat s; visible := true; content := c |}])
  ∧ (s < 0 ∨ Z.of_nat (length (children p)) ≤ s → shown (render p s) = [])
  ∧ (∀ c rest, initialPage p = None → children p = c :: rest →
       shown (render p (initialState p))
         = [{| key := 0; visible := true; content := c |}]).
Proof.
  split_and!.
  - unfold render; simpl. apply length_imap.
  - intros c Hs Hc. rewrite shown_render, Hc.
    rewrite bool_decide_eq_true_2 by done. unfold pane.
    by rewrite bool_decide_eq_true_2 by lia.
  - intros Hout. rewrite shown_render. case_bool_decide; [|done].
    rewrite lookup_ge_None_2; [done|lia].
  - intros c rest Hinit Hch. rewrite shown_render. unfold initialState.
    rewrite Hinit, Hch. reflexivity.
Qed.

Lemma last_nonempty_default (l : list Z) (x a b : Z) :
  default a (last (x :: l)) = default b (last (x :: l)).
Proof.
  revert x. induction l as [|y l IH]; intros x; [done|].
  rewrite !last_cons_cons. apply IH.
Qed.

Lemma step_state p (e : Event) s : (step p e s).1 = eventIndex e.
Proof.
  destruct e as [i|i].
  - by rewrite PagerSpec.step_TabBarSelect.
  - by rewrite PagerSpec.step_SetPage.
Qed.

Lemma steps_last p (evs : list Event) s :
  (steps p evs s).1 = default s (last (eventIndex <$> evs)).
Proof.
  revert s. induction evs as [|e evs IH]; intros s; [done|].
  rewrite PagerSpec.steps_cons. cbn [fst]. rewrite IH, step_state, fmap_cons.
  destruct (eventIndex <$> evs) as [|x l]; [done|].
  rewrite last_cons_cons. apply last_nonempty_default.
Qed.

(** X2.  After any run of tab-bar selections and [setPage] calls the
    selected page is the index of the last event of the run (the page is
    unchanged by an empty run): earlier events leave no trace in the state.
    The render then has one tab bar, above the panes unless
    [tabBarPosition] is bottom, and it is [renderTabBar] applied to that
    index and to [onTabBarSelect]. *)
Theorem pager_last_event_wins p (evs : list Event) s :
  let s' := (steps p evs s).1 in
  s' = default s (last (eventIndex <$> evs))
  ∧ (∀ e, (steps p (evs ++ [e]) s).1 = eventIndex e)
  ∧ (barAbove (render p s'), barBelow (render p s')) =
      let bar := renderTabBar p {| selectedPage := s'; onSelect := onTabBarSelect p |} in
      match tabBarPosition p with
      | Some bottom => (None, Some bar)
      | _ => (Some bar, None)
      end.
Proof.
  simpl. split_and!.
  - apply steps_last.
  - intros e. rewrite steps_last, fmap_app. simpl. by rewrite last_snoc.
  - unfold render, tabBar; simpl. by destruct (tabBarPosition p) as [[]|].
Qed.

End WithNodes.

(** Witness of X1: three children, the indices 1, 3 and -1. *)
Lemma pager_shows_at_most_one_witness :
  let p : Props nat unit unit :=
    {| children := [10%nat; 20%nat; 30%nat]; tabBarPosition := None;
       initialPage := None; renderTabBar := λ _, ();
       onPageSelected := None; onPageSelecting := None |} in
  shown (render p 1) = [{| key := 1; visible := true; content := 20%nat |}]
  ∧ shown (render p 3) = []
  ∧ shown (render p (-1)) = [].
Proof.
  intros p. split_and!.
  - exact (proj1 (proj2 (pager_shows_at_most_one p 1)) 20%nat ltac:(lia) eq_refl).
  - apply (proj1 (proj2 (proj2 (pager_shows_at_most_one p 3)))). right. simpl. lia.
  - apply (proj1 (proj2 (proj2 (pager_shows_at_most_one p (-1))))). left. lia.
Defined.

End PagerRunsSpec.

(** * Further properties of the Toggle family *)

Module ToggleViewsSpec.
Import Toggle ToggleViews.

Implicit Types (p : GroupProps) (g : Instance) (s : list string)
  (fv : FieldValue) (item : ItemProps) (name : string) (d : option bool).

(** ** Presses on the children of a Group *)

Lemma filter_absent name s : name ∉ s → filter (λ v, v ≠ name) s = s.
Proof.
  induction s as [|x s IH]; [done|].
  rewrite not_elem_of_cons. intros [Hx Hs].
  rewrite filter_cons, decide_True by done. by rewrite IH.
Qed.

Lemma filter_self name : filter (λ v, v ≠ name) [name] = [].
Proof. rewrite filter_cons, decide_False; [done|]. by intros ?. Qed.

(** A press calls the Group's setter twice, as the setter of the context
    and as the [onChange] the Group put on the child; the second call
    changes nothing. *)
Lemma press_updates type name s :
  let u := setFieldValue type
             {| fieldName := name; fieldValue := negb (includes s name) |} in
  foldl (λ s u, applyUpdate u s) s [u; u] = pressedValues type name s.
Proof.
  destruct type; [done|]. simpl. unfold includes.
  case_bool_decide as Hin; simpl.
  - apply filter_absent. rewrite list_elem_of_filter. by intros [? _].
  - rewrite (filter_absent name s) by done.
    by rewrite filter_app, filter_self, filter_absent, app_nil_r.
Qed.

(** The Item of a child is pressable exactly when the child is not held
    back. *)
Lemma cloned_disabledIn p g name d c :
  cloneChild p g (Element name d) = Some c →
  disabledIn (contextOf p g) (itemOfCloned c) = heldBack p g name d.
Proof.
  intros [= <-]. unfold disabledIn, heldBack, orProp; simpl.
  by destruct (disabledOf p), (maxReached g), (includes (values g) name),
    d as [[]|].
Qed.

Lemma pressChild_element p k g name d :
  settled p g → groupChildren p !! k = Some (Element name d) →
  if heldBack p g name d then pressChild p k g = Some (g, [])
  else ∃ g', pressChild p k g = Some (g', [OnChange (onChangeProp g) (values g')])
         ∧ values g' = pressedValues (typeOf p) name (values g)
         ∧ valuesRef g' = S (valuesRef g)
         ∧ onChangeProp g' = onChangeProp g
         ∧ settled p g'.
Proof.
  intros Hs Hk. unfold pressChild.
  rewrite ToggleSpec.renderGroup_lookup, Hk.
  change (cloneChild p g <$> Some (Element name d))
    with (Some (cloneChild p g (Element name d))).
  destruct (cloneChild p g (Element name d)) as [c|] eqn:Hc; [|done].
  unfold pressable. rewrite (cloned_disabledIn p g name d c Hc).
  destruct (heldBack p g name d); [by rewrite ToggleSpec.handle_idle|].
  injection Hc as <-.
  match goal with |- context [handle p ?hs g] =>
    destruct (ToggleSpec.handle_queue_ref p hs g Hs)
      as (g' & -> & Hv & Href & Hf & Hs'); [done|]
  end.
  exists g'. split_and!; [by rewrite Hf|..|done|done|done].
  rewrite Hv. apply press_updates.
Qed.

Lemma pressChild_other p k g :
  (∀ name d, groupChildren p !! k ≠ Some (Element name d)) →
  pressChild p k g = Some (g, []).
Proof.
  intros Hk. unfold pressChild. rewrite ToggleSpec.renderGroup_lookup.
  destruct (groupChildren p !! k) as [[name d|]|]; [|done..].
  by destruct (Hk name d).
Qed.

Lemma reachable p g0 calls0 evs g calls :
  mount p = Live g0 calls0 → steps p evs g0 = Some (g, calls) → settled p g.
Proof.
  intros Hm Hsteps.
  destruct (ToggleSpec.steps_settled p evs g0) as (g' & c' & Hsteps' & Hs).
  - by eapply ToggleSpec.mount_settled.
  - rewrite Hsteps in Hsteps'. by injection Hsteps' as -> _.
Qed.

(** X3.  A press on a child of a mounted Group, in any state the Group can
    reach: if the child is held back (the Group is disabled, the child is
    disabled itself, or the cap is reached and the child is not selected)
    nothing changes and nothing is called; otherwise [onChange] is called
    once with the new selection, which is [[name]] in a radio Group and, in
    a checkbox Group, the old selection without [name] if it was selected
    and with [name] added at the end if it was not. *)
Theorem press_on_child p g0 calls0 evs g calls k name d :
  mount p = Live g0 calls0 → steps p evs g0 = Some (g, calls) →
  groupChildren p !! k = Some (Element name d) →
  (heldBack p g name d = true → pressChild p k g = Some (g, []))
  ∧ (heldBack p g name d = false →
       ∃ g', pressChild p k g = Some (g', [OnChange (onChangeProp g) (values g')])
         ∧ values g' =
             match typeOf p with
             | radio => [name]
             | checkbox =>
                 if bool_decide (name ∈ values g)
                 then filter (λ v, v ≠ name) (values g)
                 else values g ++ [name]
             end).
Proof.
  intros Hm Hsteps Hk.
  pose proof (reachable _ _ _ _ _ _ Hm Hsteps) as Hs.
  pose proof (pressChild_element p k g name d Hs Hk) as H.
  split; intros Hheld; rewrite Hheld in H; [done|].
  destruct H as (g' & ? & ? & _). eauto.
Qed.

(** Witness of X3: in the group capped at two with a, b selected, c is
    held back and a is not. *)
Lemma press_on_child_witness :
  ∃ g0 calls0, mount capTwoGroup = Live g0 calls0
    ∧ pressChild capTwoGroup 2 g0 = Some (g0, [])
    ∧ ∃ g', pressChild capTwoGroup 0 g0 = Some (g', [OnChange 0 (values g')])
        ∧ values g' = ["b"].
Proof.
  eexists _, _. split; [reflexivity|]. split.
  - exact (proj1 (press_on_child capTwoGroup _ _ [] _ _ 2%nat "c" None
                    eq_refl eq_refl eq_refl) eq_refl).
  - exact (proj2 (press_on_child capTwoGroup _ _ [] _ _ 0%nat "a" None
                    eq_refl eq_refl eq_refl) eq_refl).
Defined.

(** X4.  In a checkbox Group, selecting a child that is not selected and
    then pressing it again restores the selection exactly: the first press
    puts the name at the end, the second removes it, and after the first
    press the cap cannot hold the child back, since it is selected. *)
Theorem select_then_deselect p g0 calls0 evs g calls k name d :
  typeOf p = checkbox →
  mount p = Live g0 calls0 → steps p evs g0 = Some (g, calls) →
  groupChildren p !! k = Some (Element name d) →
  name ∉ values g → heldBack p g name d = false →
  ∃ g1 calls1 g2 calls2,
    pressChild p k g = Some (g1, calls1) ∧ values g1 = values g ++ [name]
    ∧ pressChild p k g1 = Some (g2, calls2) ∧ values g2 = values g
    ∧ steps p [PressChild k; PressChild k] g = Some (g2, calls1 ++ calls2).
Proof.
  intros Hty Hm Hsteps Hk Hnot Hheld.
  pose proof (reachable _ _ _ _ _ _ Hm Hsteps) as Hs.
  pose proof (pressChild_element p k g name d Hs Hk) as H1.
  rewrite Hheld in H1. destruct H1 as (g1 & Hp1 & Hv1 & _ & _ & Hs1).
  rewrite Hty in Hv1. unfold pressedValues, includes in Hv1.
  rewrite bool_decide_eq_false_2 in Hv1 by done.
  assert (Hheld1 : heldBack p g1 name d = false).
  { unfold heldBack in *. unfold includes. rewrite Hv1.
    rewrite (bool_decide_eq_true_2 (name ∈ values g ++ [name]))
      by (rewrite elem_of_app, list_elem_of_singleton; auto).
    simpl negb. rewrite andb_false_r.
    destruct (disabledOf p); [done|].
    rewrite !orb_false_l in *.
    by destruct (maxReached g && negb (includes (values g) name)). }
  pose proof (pressChild_element p k g1 name d Hs1 Hk) as H2.
  rewrite Hheld1 in H2. destruct H2 as (g2 & Hp2 & Hv2 & _).
  rewrite Hty, Hv1 in Hv2. unfold pressedValues, includes in Hv2.
  rewrite bool_decide_eq_true_2 in Hv2
    by (rewrite elem_of_app, list_elem_of_singleton; auto).
  rewrite filter_app, filter_self, filter_absent, app_nil_r in Hv2 by done.
  eexists g1, _, g2, _. split_and!; [exact Hp1|done|exact Hp2|done|].
  simpl. rewrite Hp1; simpl. rewrite Hp2; reflexivity.
Qed.

(** Witness of X4: a group capped at three with a, b selected; the third
    child c is pressed twice. *)
Lemma select_then_deselect_witness :
  let p := {| groupType := Some checkbox; initialValues := Some ["a"; "b"];
              maxSelections := Some 3; groupDisabled := None; groupOnChange := 0;
              groupChildren := itemsNamed ["a"; "b"; "c"] |} in
  ∃ g0 calls0, mount p = Live g0 calls0
    ∧ ∃ g1 calls1 g2 calls2,
        pressChild p 2 g0 = Some (g1, calls1) ∧ values g1 = values g0 ++ ["c"]
        ∧ pressChild p 2 g1 = Some (g2, calls2) ∧ values g2 = values g0
        ∧ steps p [PressChild 2; PressChild 2] g0 = Some (g2, calls1 ++ calls2).
Proof.
  intros p. eexists _, _. split; [reflexivity|].
  apply (select_then_deselect p _ _ [] _ _ 2%nat "c" None
           eq_refl eq_refl eq_refl eq_refl); [|reflexivity].
  simpl. rewrite !not_elem_of_cons. split_and!; [done..|]. apply not_elem_of_nil.
Defined.

(** ** The cap *)

Lemma capped_spec p m len :
  capOf p = Some m → capped p len = bool_decide (m ≤ Z.of_nat len).
Proof. unfold capped. by intros ->. Qed.

Lemma step_cap_bound p m e g g' calls :
  typeOf p = checkbox → capOf p = Some m → settled p g → viaChildren e = true →
  step p e g = Some (g', calls) →
  Z.of_nat (length (values g')) ≤ Z.max m (Z.of_nat (length (values g))).
Proof.
  intros Hty Hcap Hs Hvia. destruct e as [k|item|f]; [|done|]; simpl.
  - destruct (groupChildren p !! k) as [[name d|]|] eqn:Hk.
    + pose proof (pressChild_element p k g name d Hs Hk) as H.
      destruct (heldBack p g name d) eqn:Hheld.
      * rewrite H. intros [= <- _]. lia.
      * destruct H as (g1 & -> & Hv & _). intros [= <- _].
        rewrite Hv, Hty. unfold pressedValues, includes.
        case_bool_decide as Hin.
        -- pose proof (length_filter (λ v, v ≠ name) (values g)). lia.
        -- rewrite length_app. simpl.
           destruct Hs as (_ & _ & Hr). rewrite (capped_spec p m) in Hr by done.
           unfold heldBack, includes in Hheld.
           rewrite (bool_decide_eq_false_2 (name ∈ values g)) in Hheld by done.
           destruct (maxReached g) eqn:Hmr.
           ++ by rewrite orb_true_r in Hheld.
           ++ symmetry in Hr. apply bool_decide_eq_false in Hr. lia.
    + rewrite pressChild_other by (intros ??; congruence).
      intros [= <- _]. lia.
    + rewrite pressChild_other by (intros ??; congruence).
      intros [= <- _]. lia.
  - destruct (ToggleSpec.rerender_settled p f g Hs) as (g1 & -> & Hv & _).
    intros [= <- _]. rewrite Hv. lia.
Qed.

Lemma steps_cap_bound p m evs g g' calls :
  typeOf p = checkbox → capOf p = Some m → settled p g →
  forallb viaChildren evs = true →
  steps p evs g = Some (g', calls) →
  Z.of_nat (length (values g')) ≤ Z.max m (Z.of_nat (length (values g))).
Proof.
  intros Hty Hcap. revert g calls.
  induction evs as [|e evs IH]; intros g calls Hs Hvia; simpl.
  - intros [= <- _]. lia.
  - simpl in Hvia. apply andb_true_iff in Hvia as [He Hevs].
    destruct (ToggleSpec.step_settled p e g Hs) as (g1 & c1 & Hstep & Hs1).
    pose proof (step_cap_bound p m e g g1 c1 Hty Hcap Hs He Hstep) as Hb.
    rewrite Hstep; simpl.
    destruct (steps p evs g1) as [[g2 c2]|] eqn:Hsteps; [|done]; simpl.
    intros [= <- _].
    pose proof (IH g1 c2 Hs1 Hevs Hsteps). lia.
Qed.

(** X5.  In a checkbox Group with [maxSelections = m], [m] not zero, presses
    on the children and re-renders never take the selection past the larger
    of [m] and the size it had at mount; mounted with at most [m] values,
    the Group never holds more than [m]. *)
Theorem cap_bounds_selection p m g0 calls0 evs g calls :
  typeOf p = checkbox → maxSelections p = Some m → m ≠ 0 →
  mount p = Live g0 calls0 →
  forallb viaChildren evs = true →
  steps p evs g0 = Some (g, calls) →
  Z.of_nat (length (values g)) ≤ Z.max m (Z.of_nat (length (values g0)))
  ∧ (Z.of_nat (length (values g0)) ≤ m → Z.of_nat (length (values g)) ≤ m).
Proof.
  intros Hty Hmax Hm0 Hmount Hvia Hsteps.
  assert (Z.of_nat (length (values g)) ≤ Z.max m (Z.of_nat (length (values g0)))).
  { eapply steps_cap_bound; [done|by apply ToggleSpec.capOf_checkbox| |done..].
    by eapply ToggleSpec.mount_settled. }
  split; [done|lia].
Qed.

(** Witness of X5: cap 2, a and b selected; c (held back), a, c are
    pressed. *)
Lemma cap_bounds_selection_witness :
  ∃ g0 calls0 g calls,
    mount capTwoGroup = Live g0 calls0
    ∧ steps capTwoGroup (PressChild <$> [2; 0; 2]%nat) g0 = Some (g, calls)
    ∧ values g = ["b"; "c"]
    ∧ Z.of_nat (length (values g)) ≤ 2.
Proof.
  eexists _, _, _, _. split; [cbv; reflexivity|]. split; [cbv; reflexivity|].
  split; [reflexivity|].
  refine (proj2 (cap_bounds_selection capTwoGroup 2 _ _
                   (PressChild <$> [2; 0; 2]%nat) _ _ _ _ _ _ _ _) _).
  - reflexivity.
  - reflexivity.
  - lia.
  - vm_compute; reflexivity.
  - reflexivity.
  - vm_compute; reflexivity.
  - simpl. lia.
Defined.

(** ** A disabled Group *)

(** X6.  A Group with [disabled] set hands [disabled = true] to every child
    that is an element, whatever the child's own props and the selection,
    and no run of presses on its children changes its state or calls
    anything. *)
Theorem disabled_group_is_inert p g :
  groupDisabled p = Some true →
  (∀ (k : nat) name d, groupChildren p !! k = Some (Element name d) →
     ∃ c, renderGroup p g !! k = Some (Some c) ∧ clonedDisabled c = Some true)
  ∧ (∀ ks : list nat, steps p (PressChild <$> ks) g = Some (g, [])).
Proof.
  intros Hdis.
  assert (Hd : disabledOf p = true) by (unfold disabledOf; by rewrite Hdis).
  split.
  - intros k name d Hk. rewrite ToggleSpec.renderGroup_lookup, Hk. simpl.
    eexists. split; [reflexivity|]. simpl. rewrite Hd. simpl.
    by destruct (maxReached g && negb (includes (values g) name)).
  - assert (Hpress : ∀ k, pressChild p k g = Some (g, [])).
    { intros k. unfold pressChild. rewrite ToggleSpec.renderGroup_lookup.
      destruct (groupChildren p !! k) as [[name d|]|]; [|done..].
      simpl. unfold pressable, disabledIn. simpl. by rewrite Hd. }
    intros ks. induction ks as [|k ks IH]; [done|].
    rewrite fmap_cons. simpl. rewrite Hpress. simpl. by rewrite IH.
Qed.

(** Witness of X6: a disabled group over a, b with a selected. *)
Lemma disabled_group_is_inert_witness :
  let p := {| groupType := None; initialValues := Some ["a"];
              maxSelections := None; groupDisabled := Some true;
              groupOnChange := 0; groupChildren := itemsNamed ["a"; "b"] |} in
  ∃ g0 calls0, mount p = Live g0 calls0
    ∧ steps p (PressChild <$> [0; 1; 1]%nat) g0 = Some (g0, []).
Proof.
  intros p. eexists _, _. split; [reflexivity|].
  exact (proj2 (disabled_group_is_inert p _ eq_refl) [0; 1; 1]%nat).
Defined.

(** ** Radio groups and the cap *)

Lemma capOf_radio p : typeOf p = radio → capOf p = None.
Proof. unfold capOf. by intros ->. Qed.

(** X7.  A radio Group ignores [maxSelections]: in every state it can
    reach the max-reached flag is clear and each child is handed the
    [disabled] it would get without a cap, and type radio.  A press on a
    child that is not disabled leaves exactly that child's name selected:
    [onChange] is called with [[name]], and afterwards the children that
    render as selected are the ones with that name. *)
Theorem radio_group_ignores_cap p g0 calls0 evs g calls :
  typeOf p = radio →
  mount p = Live g0 calls0 → steps p evs g0 = Some (g, calls) →
  maxReached g = false
  ∧ (∀ (k : nat) name d, groupChildren p !! k = Some (Element name d) →
       ∃ c, renderGroup p g !! k = Some (Some c)
         ∧ clonedType c = radio
         ∧ clonedDisabled c = ownDisabled p d)
  ∧ (∀ (k : nat) name d, groupChildren p !! k = Some (Element name d) →
       ownDisabled p d ≠ Some true →
       ∃ g', pressChild p k g = Some (g', [OnChange (onChangeProp g) [name]])
         ∧ values g' = [name]
         ∧ ∀ (k' : nat) name' d',
             groupChildren p !! k' = Some (Element name' d') →
             ∃ c', renderGroup p g' !! k' = Some (Some c')
               ∧ (clonedValue c' = true ↔ name' = name)).
Proof.
  intros Hty Hm Hsteps.
  pose proof (reachable _ _ _ _ _ _ Hm Hsteps) as Hs.
  assert (Hflag : maxReached g = false).
  { destruct Hs as (_ & _ & ->). apply ToggleSpec.capped_no_cap.
    by apply capOf_radio. }
  split_and!; [done| |].
  - intros k name d Hk. rewrite ToggleSpec.renderGroup_lookup, Hk. simpl.
    eexists. split; [reflexivity|]. simpl. by rewrite Hflag, Hty.
  - intros k name d Hk Hown.
    pose proof (pressChild_element p k g name d Hs Hk) as H.
    assert (Hheld : heldBack p g name d = false).
    { unfold heldBack. rewrite Hflag. unfold ownDisabled, orProp in Hown.
      by destruct (disabledOf p), d as [[]|]. }
    rewrite Hheld, Hty in H. destruct H as (g' & Hp & Hv & _).
    simpl in Hv. exists g'. rewrite Hp, Hv. split_and!; [done..|].
    intros k' name' d' Hk'. rewrite ToggleSpec.renderGroup_lookup, Hk'. simpl.
    eexists. split; [reflexivity|]. simpl. unfold includes. rewrite Hv.
    rewrite bool_decide_eq_true. apply list_elem_of_singleton.
Qed.

(** Witness of X7: a radio group with a cap of one; b is pressed. *)
Lemma radio_group_ignores_cap_witness :
  let p := {| groupType := Some radio; initialValues := Some ["a"];
              maxSelections := Some 1; groupDisabled := None; groupOnChange := 0;
              groupChildren := itemsNamed ["a"; "b"] |} in
  ∃ g0 calls0, mount p = Live g0 calls0
    ∧ maxReached g0 = false
    ∧ ∃ g', pressChild p 1 g0 = Some (g', [OnChange (onChangeProp g0) ["b"]])
        ∧ values g' = ["b"].
Proof.
  intros p. eexists _, _. split; [reflexivity|].
  pose proof (radio_group_ignores_cap p _ _ [] _ _ eq_refl eq_refl eq_refl)
    as (Hflag & _ & Hpress).
  split; [exact Hflag|].
  destruct (Hpress 1%nat "b" None eq_refl ltac:(done)) as (g' & Hp & Hv & _).
  eauto.
Defined.

(** ** What the caller of [onChange] knows *)

Lemma lastSelection_app (l1 l2 : list Call) :
  lastSelection (l1 ++ l2) =
    match lastSelection l2 with
    | Some sel => Some sel
    | None => lastSelection l1
    end.
Proof. unfold lastSelection. by rewrite omap_app, last_app. Qed.

Lemma lastSelection_external (hs : list (Handler * FieldValue)) :
  lastSelection (externalCalls hs) = None.
Proof.
  unfold lastSelection. apply last_None.
  induction hs as [|[h fv] hs IH]; [done|].
  unfold externalCalls. rewrite bind_cons, omap_app.
  fold (externalCalls hs). rewrite IH. by destruct h.
Qed.

Lemma step_last_selection p e g g' calls :
  settled p g → step p e g = Some (g', calls) →
  lastSelection calls = Some (values g')
  ∨ lastSelection calls = None ∧ values g' = values g.
Proof.
  intros Hs. destruct e as [k|item|f]; simpl.
  - destruct (ToggleSpec.pressChild_cases p k g Hs)
      as (g1 & c1 & -> & [[-> _]|[-> ->]]); intros [= <- <-]; auto.
  - destruct (ToggleSpec.activate_cases p item g Hs) as (g1 & -> & _).
    intros [= <- <-]. left.
    by rewrite lastSelection_app.
  - destruct (ToggleSpec.rerender_settled p f g Hs) as (g1 & -> & Hv & _).
    intros [= <- <-]. rewrite Hv. case_bool_decide; auto.
Qed.

Lemma steps_last_selection p evs g g' calls log :
  settled p g → lastSelection log = Some (values g) →
  steps p evs g = Some (g', calls) →
  lastSelection (log ++ calls) = Some (values g').
Proof.
  revert g calls log.
  induction evs as [|e evs IH]; intros g calls log Hs Hlog; simpl.
  - intros [= <- <-]. by rewrite app_nil_r.
  - destruct (ToggleSpec.step_settled p e g Hs) as (g1 & c1 & Hstep & Hs1).
    rewrite Hstep; simpl.
    destruct (steps p evs g1) as [[g2 c2]|] eqn:Hsteps; [|done]; simpl.
    intros [= <- <-]. rewrite app_assoc.
    apply (IH g1 c2 (log ++ c1) Hs1); [|done].
    rewrite lastSelection_app.
    destruct (step_last_selection p e g g1 c1 Hs Hstep) as [->|[-> ->]]; done.
Qed.

(** X8.  At any moment after mount, the argument of the latest [onChange]
    call is the current selection of the Group: a caller that keeps the
    last list it was handed always holds the Group's selection, whatever
    presses, activations and re-renders have happened. *)
Theorem last_onChange_is_current p g0 calls0 evs g calls :
  mount p = Live g0 calls0 → steps p evs g0 = Some (g, calls) →
  lastSelection (calls0 ++ calls) = Some (values g).
Proof.
  intros Hm Hsteps.
  apply (steps_last_selection p evs g0); [by eapply ToggleSpec.mount_settled| |done].
  destruct (initialValues p) as [vs|] eqn:Hvs;
    [|by rewrite ToggleSpec.mount_threw in Hm].
  destruct (ToggleSpec.mount_live p vs Hvs) as (g1 & Hm1 & _).
  rewrite Hm in Hm1. by injection Hm1 as -> ->.
Qed.

(** Witness of X8: a is pressed, an Item named c is activated, and the
    Group is rendered again with another [onChange]. *)
Lemma last_onChange_is_current_witness :
  ∃ g0 calls0 g calls,
    mount checkboxGroupAB = Live g0 calls0
    ∧ steps checkboxGroupAB
        [PressChild 0; Activate standaloneItem; Rerender 5] g0 = Some (g, calls)
    ∧ values g = ["b"; "tos"]
    ∧ lastSelection (calls0 ++ calls) = Some (values g).
Proof.
  eexists _, _, _, _. split; [cbv; reflexivity|]. split; [cbv; reflexivity|].
  split; [reflexivity|].
  refine (last_onChange_is_current checkboxGroupAB _ _
            [PressChild 0; Activate standaloneItem; Rerender 5] _ _ _ _).
  - vm_compute; reflexivity.
  - vm_compute; reflexivity.
Defined.

(** ** Duplicates *)

Lemma setFieldValue_NoDup type fv s :
  NoDup s → NoDup (applyUpdate (setFieldValue type fv) s).
Proof.
  intros Hs. destruct type; simpl; [apply NoDup_singleton|].
  pose proof (NoDup_filter (λ v, v ≠ fieldName fv) s Hs) as Hf.
  destruct (fieldValue fv); [|done].
  apply NoDup_app. split_and!; [done| |apply NoDup_singleton].
  intros x Hx. rewrite list_elem_of_singleton. intros ->.
  apply list_elem_of_filter in Hx. by destruct Hx.
Qed.

Lemma queue_NoDup type (hs : list (Handler * FieldValue)) s :
  NoDup s → NoDup (foldl (λ s u, applyUpdate u s) s (queuedUpdates type hs)).
Proof.
  revert s. induction hs as [|[h fv] hs IH]; intros s Hs; [done|].
  unfold queuedUpdates. rewrite bind_cons. fold (queuedUpdates type hs).
  rewrite foldl_app. apply IH.
  destruct h; simpl; try done. by apply setFieldValue_NoDup.
Qed.

Lemma handle_NoDup p hs g g' calls :
  settled p g → NoDup (values g) →
  handle p hs g = Some (g', calls) → NoDup (values g').
Proof.
  intros Hs Hnd.
  destruct (decide (queuedUpdates (typeOf p) hs = [])) as [Hq|Hq].
  - rewrite ToggleSpec.handle_idle by done. by intros [= <- _].
  - destruct (ToggleSpec.handle_queue p hs g Hs Hq) as (g1 & -> & Hv & _).
    intros [= <- _]. rewrite Hv. by apply queue_NoDup.
Qed.

Lemma step_NoDup p e g g' calls :
  settled p g → NoDup (values g) →
  step p e g = Some (g', calls) → NoDup (values g').
Proof.
  intros Hs Hnd. destruct e as [k|item|f]; simpl.
  - unfold pressChild. destruct (renderGroup p g !! k) as [[c|]|].
    + by apply handle_NoDup.
    + by intros [= <- _].
    + by intros [= <- _].
  - by apply handle_NoDup.
  - destruct (ToggleSpec.rerender_settled p f g Hs) as (g1 & -> & Hv & _).
    intros [= <- _]. by rewrite Hv.
Qed.

(** X9.  A Group mounted with values that are pairwise different never
    holds a name twice, whatever presses, activations and re-renders
    follow. *)
Theorem selection_stays_duplicate_free p vs g0 calls0 evs g calls :
  initialValues p = Some vs → NoDup vs →
  mount p = Live g0 calls0 → steps p evs g0 = Some (g, calls) →
  NoDup (values g).
Proof.
  intros Hvs Hnd Hm.
  assert (Hs0 : settled p g0) by by eapply ToggleSpec.mount_settled.
  assert (Hnd0 : NoDup (values g0)).
  { destruct (ToggleSpec.mount_live p vs Hvs) as (g1 & Hm1 & Hv & _).
    rewrite Hm in Hm1. injection Hm1 as -> _. rewrite Hv.
    destruct (typeOf p); [|done].
    destruct vs as [|x vs']; [done|]. simpl. rewrite take_0. apply NoDup_singleton. }
  clear Hm Hvs Hnd. revert g0 calls Hs0 Hnd0.
  induction evs as [|e evs IH]; intros g0 calls Hs0 Hnd0; simpl.
  - by intros [= <- _].
  - destruct (ToggleSpec.step_settled p e g0 Hs0) as (g1 & c1 & Hstep & Hs1).
    pose proof (step_NoDup p e g0 g1 c1 Hs0 Hnd0 Hstep) as Hnd1.
    rewrite Hstep; simpl.
    destruct (steps p evs g1) as [[g2 c2]|] eqn:Hsteps; [|done]; simpl.
    intros [= <- _]. by eapply IH.
Qed.

(** Witness of X9: a is pressed twice in the group with a, b selected. *)
Lemma selection_stays_duplicate_free_witness :
  ∃ g0 calls0 g calls,
    mount checkboxGroupAB = Live g0 calls0
    ∧ steps checkboxGroupAB [PressChild 0; PressChild 0] g0 = Some (g, calls)
    ∧ values g = ["b"; "a"]
    ∧ NoDup (values g).
Proof.
  eexists _, _, _, _. split; [cbv; reflexivity|]. split; [cbv; reflexivity|].
  split; [reflexivity|].
  refine (selection_stays_duplicate_free checkboxGroupAB ["a"; "b"] _ _
            [PressChild 0; PressChild 0] _ _ _ _ _ _).
  - reflexivity.
  - apply NoDup_cons. split; [|apply NoDup_singleton].
    rewrite list_elem_of_singleton. discriminate.
  - vm_compute; reflexivity.
  - vm_compute; reflexivity.
Defined.

(** ** Where the selected names come from *)

Lemma child_name_known p (k : nat) name d :
  groupChildren p !! k = Some (Element name d) → name ∈ childNames p.
Proof.
  intros Hk. unfold childNames. apply list_elem_of_omap.
  exists (Element name d). split; [|done]. by eapply list_elem_of_lookup_2.
Qed.

(** X10.  Under presses on the children and re-renders, every selected
    name is one of the initial values or the name of a child of the
    Group. *)
Theorem selection_within_known_names p vs g0 calls0 evs g calls :
  initialValues p = Some vs →
  mount p = Live g0 calls0 →
  forallb viaChildren evs = true →
  steps p evs g0 = Some (g, calls) →
  ∀ x, x ∈ values g → x ∈ vs ∨ x ∈ childNames p.
Proof.
  intros Hvs Hm.
  assert (Hs0 : settled p g0) by by eapply ToggleSpec.mount_settled.
  assert (H0 : ∀ x, x ∈ values g0 → x ∈ vs ∨ x ∈ childNames p).
  { destruct (ToggleSpec.mount_live p vs Hvs) as (g1 & Hm1 & Hv & _).
    rewrite Hm in Hm1. injection Hm1 as -> _. rewrite Hv.
    intros x Hx. left. destruct (typeOf p); [|done].
    by apply (subseteq_take 1 vs). }
  clear Hm Hvs. revert g0 calls Hs0 H0.
  induction evs as [|e evs IH]; intros g0 calls Hs0 H0 Hvia; simpl.
  - by intros [= <- _].
  - simpl in Hvia. apply andb_true_iff in Hvia as [He Hevs].
    destruct (ToggleSpec.step_settled p e g0 Hs0) as (g1 & c1 & Hstep & Hs1).
    rewrite Hstep; simpl.
    destruct (steps p evs g1) as [[g2 c2]|] eqn:Hsteps; [|done]; simpl.
    intros [= <- _]. apply (IH g1 c2); [done| |done..].
    clear IH Hsteps. destruct e as [k|item|f]; [|done|]; simpl in Hstep.
    + destruct (groupChildren p !! k) as [[name d|]|] eqn:Hk.
      * pose proof (pressChild_element p k g0 name d Hs0 Hk) as H.
        destruct (heldBack p g0 name d).
        -- rewrite H in Hstep. by injection Hstep as <- _.
        -- destruct H as (g' & Hp & Hv & _). rewrite Hp in Hstep.
           injection Hstep as <- _. rewrite Hv.
           pose proof (child_name_known p k name d Hk) as Hname.
           intros x. unfold pressedValues.
           destruct (typeOf p); [|destruct (includes (values g0) name)].
           ++ rewrite list_elem_of_singleton. intros ->. by right.
           ++ rewrite list_elem_of_filter. intros [_ Hx]. by apply H0.
           ++ rewrite elem_of_app, list_elem_of_singleton.
              intros [Hx| ->]; [by apply H0|by right].
      * rewrite pressChild_other in Hstep by (intros ??; congruence).
        by injection Hstep as <- _.
      * rewrite pressChild_other in Hstep by (intros ??; congruence).
        by injection Hstep as <- _.
    + destruct (ToggleSpec.rerender_settled p f g0 Hs0) as (g' & Hr & Hv & _).
      rewrite Hr in Hstep. injection Hstep as <- _. by rewrite Hv.
Qed.

(** Witness of X10: b is pressed in the radio group with initial values
    a, b. *)
Lemma selection_within_known_names_witness :
  ∃ g0 calls0 g calls,
    mount radioGroupAB = Live g0 calls0
    ∧ steps radioGroupAB [PressChild 1] g0 = Some (g, calls)
    ∧ values g = ["b"]
    ∧ ∀ x, x ∈ values g → x ∈ ["a"; "b"] ∨ x ∈ childNames radioGroupAB.
Proof.
  eexists _, _, _, _. split; [cbv; reflexivity|]. split; [cbv; reflexivity|].
  split; [reflexivity|].
  refine (selection_within_known_names radioGroupAB ["a"; "b"] _ _
            [PressChild 1] _ _ _ _ _ _).
  - reflexivity.
  - vm_compute; reflexivity.
  - reflexivity.
  - vm_compute; reflexivity.
Defined.

(** ** The Item of a child *)

(** X11.  The Item rendered from a child of the Group: it carries the
    child's name; it is selected exactly when the name is in the selection;
    it is disabled exactly when the Group is disabled, the child is disabled
    itself, or the cap is reached and the child is not selected; its role is
    the Group's type; its [onChange] is the Group's setter; the interaction
    flags are passed on as they are.  A child that is not an element gives
    no Item. *)
Theorem child_item_state p g name d (i : Interaction) :
  childItem p g NotElement = None
  ∧ ∃ item st,
      childItem p g (Element name d) = Some item
      ∧ childState p g (Element name d) i = Some st
      ∧ itemOnChange item = Some GroupSetter
      ∧ role (contextOf p g) item = typeOf p
      ∧ stName st = name
      ∧ stSelected st = bool_decide (name ∈ values g)
      ∧ stDisabled st =
          (disabledOf p
           || (maxReached g && negb (bool_decide (name ∈ values g)))
           || default false d)
      ∧ (stHovered st, stPressed st, stFocused st)
          = (isHovered i, isPressed i, isFocused i).
Proof.
  split; [done|]. eexists _, _. split; [reflexivity|]. split; [reflexivity|].
  simpl. split_and!; try done.
  - unfold role; simpl. by destruct (typeOf p).
  - unfold selectedIn; simpl. apply orb_diag.
  - apply (cloned_disabledIn p g name d). reflexivity.
Qed.

(** ** Styles *)

(** X12.  The style builder, for every input: the base styles are one layer
    for each of [selected], [hasError] and [disabled] that is set, and do
    not depend on [hovered] and [focused]; the hover styles are empty unless
    [hovered] or [focused], and then one layer plus one for [hasError],
    whether or not the Item is disabled; with [hasError] the last hover
    layer is the error one. *)
Theorem shared_styles_frame (args : StyleArgs) :
  let with_hover (h f : bool) :=
    {| theme := theme args; hovered := h; focused := f;
       selected := selected args; disabled := disabled args;
       hasError := hasError args |} in
  let with_disabled (dis : bool) :=
    {| theme := theme args; hovered := hovered args; focused := focused args;
       selected := selected args; disabled := dis;
       hasError := hasError args |} in
  length (baseStyles (createSharedToggleStyles args))
    = (Nat.b2n (selected args) + Nat.b2n (hasError args)
       + Nat.b2n (disabled args))%nat
  ∧ length (baseHoverStyles (createSharedToggleStyles args))
    = (if hovered args || focused args then 1 + Nat.b2n (hasError args) else 0)%nat
  ∧ (∀ h f, baseStyles (createSharedToggleStyles (with_hover h f))
            = baseStyles (createSharedToggleStyles args))
  ∧ (∀ dis, baseHoverStyles (createSharedToggleStyles (with_disabled dis))
            = baseHoverStyles (createSharedToggleStyles args))
  ∧ (hasError args = true → hovered args || focused args = true →
       last (baseHoverStyles (createSharedToggleStyles args))
         = Some {| backgroundColor :=
                     onLight (theme args)
                       (negative_25 (palette (theme args)))
                       (negative_900 (palette (theme args)));
                   borderColor := negative_500 (palette (theme args)) |}).
Proof.
  destruct args as [t hov foc sel dis err]. simpl. split_and!.
  - unfold createSharedToggleStyles; simpl.
    by destruct sel, err, dis, (hov || foc).
  - unfold createSharedToggleStyles; simpl.
    by destruct sel, err, dis, (hov || foc).
  - intros h f. unfold createSharedToggleStyles; simpl.
    by destruct sel, err, dis, (hov || foc), (h || f).
  - intros dis'. unfold createSharedToggleStyles; simpl.
    by destruct sel, err, dis, dis', (hov || foc).
  - intros -> Hhov. unfold createSharedToggleStyles; simpl. rewrite Hhov.
    by destruct sel, dis.
Qed.

(** X13.  In [Checkbox], [Switch] and [Radio] the test
    [hovered || focused ? baseHoverStyles : {}] never drops a layer: the
    layers applied are the base styles followed by the hover styles.  They
    are empty exactly when none of the five flags is set; without hover and
    focus the disabled layer, if any, is the last one applied, and with
    hover or focus a hover layer lies over it. *)
Theorem variant_layers (t : Theme) (st : ItemState) :
  let styles := stylesFor t st in
  appliedLayers t st = baseStyles styles ++ baseHoverStyles styles
  ∧ (appliedLayers t st = [] ↔
       stSelected st || stHasError st || stDisabled st
       || stHovered st || stFocused st = false)
  ∧ (stDisabled st = true → stHovered st || stFocused st = false →
       last (appliedLayers t st)
         = Some {| backgroundColor := contrast_200 (palette t);
                   borderColor := contrast_300 (palette t) |})
  ∧ (stHovered st || stFocused st = true →
       ∃ layer, last (appliedLayers t st) = Some layer
                ∧ layer ∈ baseHoverStyles styles).
Proof.
  destruct st as [n sel dis err hov prs foc].
  unfold appliedLayers, stylesFor, createSharedToggleStyles; simpl.
  split_and!.
  - by destruct sel, err, dis, (hov || foc).
  - destruct sel, err, dis, hov, foc; simpl; split; done.
  - intros -> ->. by destruct sel, err.
  - intros ->. destruct sel, err, dis; simpl; eexists; (split; [reflexivity|]);
      rewrite ?elem_of_cons; auto.
Qed.

End ToggleViewsSpec.
